(** * otto::itc -- state broadcast between Producer, Channel and Consumer

    A shallow embedding of [src/itc/itc.hpp].  The three class templates hold
    raw pointers to one another; the embedding keeps one typed heap per class,
    represents a pointer by the index of its cell, and makes every dereference
    explicit: reading through a pointer whose object has been destroyed is
    undefined behaviour in C++ and is [None] here. *)

From stdpp Require Import base option list.

(** ** Heaps of objects *)

(** A pointer is the index of a heap cell; [nullptr] is [None] at type
    [option addr]. *)
Abbreviation addr := nat (only parsing).

(** A heap cell is [Some x] while the object is alive and [None] once its
    destructor has run.  Cells are never reused, so a pointer to a destroyed
    object stays invalid. *)
Abbreviation heap A := (list (option A)) (only parsing).

Definition deref {A} (h : heap A) (a : addr) : option A :=
  match h !! a with
  | Some (Some x) => Some x
  | _ => None
  end.

Definition store {A} (h : heap A) (a : addr) (x : A) : heap A :=
  <[a := Some x]> h.

Definition free {A} (h : heap A) (a : addr) : heap A :=
  <[a := None]> h.

Definition alloc {A} (h : heap A) (x : A) : addr * heap A :=
  (length h, h ++ [Some x]).

(** The cell of an object whose destructor has run. *)
Definition destroyed {A} (h : heap A) (a : addr) : Prop := h !! a = Some None.

(** [std::erase(v, x)]: drops every element equal to [x]. *)
Definition erase (v : list addr) (x : addr) : list addr :=
  filter (λ y, y ≠ x) v.

(** Sequencing of operations that may hit undefined behaviour. *)
Notation "'do' x <- m ; k" := (match m with Some x => k | None => None end)
  (at level 10, x name, m at level 100, k at level 200,
   format "'[v' 'do'  x  <-  m ; '/' k ']'").

(** A range-[for] loop whose body may fail. *)
Fixpoint for_each {A W} (body : A → W → option W) (l : list A) (w : W)
  : option W :=
  match l with
  | [] => Some w
  | x :: l' => do w' <- body x w; for_each body l' w'
  end.

(** ** The concept [AState] *)

(** What the declaration [State x;], which has no initialiser, does to [x].
    For a class type with a default constructor, or with default member
    initialisers, the constructor runs and [x] is the default-constructed
    value [d], the same value as [State()].  For [int], or a struct of plain
    members without initialisers, nothing is initialised: [x] holds whatever
    the storage held before, while [State()] would be the value-initialised
    [z]. *)
Inductive DefaultInit (State : Type) : Type :=
  | Constructs (d : State)
  | LeavesIndeterminate (z : State).
Arguments Constructs {State} d.
Arguments LeavesIndeterminate {State} z.

(** [AState] asks for a copy-constructible type, which every Rocq type is.
    [Consumer] moreover declares the member [State state_;] without an
    initialiser, so a state type comes with its behaviour under
    default-initialisation. *)
Class AState (State : Type) := { default_initialisation : DefaultInit State }.

Section ITC.
Context {State : Type} `{!AState State}.

(** ** Objects *)

(** [struct Channel]: [consumers_] and [producer_]. *)
Record Channel := mkChannel {
  consumers_ : list addr;
  producer_ : option addr
}.

(** [struct Producer]: [channels_]. *)
Record Producer := mkProducer {
  channels_ : list addr
}.

(** [struct Consumer]: [channel_] and [state_]. *)
Record Consumer := mkConsumer {
  channel_ : option addr;
  state_ : State
}.

(** One call of the virtual hook [on_new_state]: the consumer it ran on, what
    [state()] returned while it ran, and its argument. *)
Record HookCall := mkHookCall {
  hc_consumer : addr;
  hc_seen : State;
  hc_arg : State
}.

(** The program state: the three heaps, and the calls of [on_new_state] made
    so far, oldest first. *)
Record World := mkWorld {
  producers : heap Producer;
  channels : heap Channel;
  consumers : heap Consumer;
  hooks : list HookCall
}.

Definition empty_world : World := mkWorld [] [] [] [].

Definition with_producers (w : World) (h : heap Producer) : World :=
  mkWorld h (channels w) (consumers w) (hooks w).
Definition with_channels (w : World) (h : heap Channel) : World :=
  mkWorld (producers w) h (consumers w) (hooks w).
Definition with_consumers (w : World) (h : heap Consumer) : World :=
  mkWorld (producers w) (channels w) h (hooks w).
Definition with_hooks (w : World) (t : list HookCall) : World :=
  mkWorld (producers w) (channels w) (consumers w) t.

(** ** Consumer *)

(** [Channel* channel() const] *)
Definition Consumer_channel (this : addr) (w : World) : option (option addr) :=
  channel_ <$> deref (consumers w) this.

(** [const State& state() const] *)
Definition Consumer_state (this : addr) (w : World) : option State :=
  state_ <$> deref (consumers w) this.

(** [virtual void on_new_state(const State& s)].  The hook may call [state()]
    on its own object; the call is recorded together with that value. *)
Definition Consumer_on_new_state (this : addr) (s : State) (w : World)
  : option World :=
  do seen <- Consumer_state this w;
  Some (with_hooks w (hooks w ++ [mkHookCall this seen s])).

(** [void internal_produce(const State& s) { on_new_state(s); state_ = s; }] *)
Definition Consumer_internal_produce (s : State) (this : addr) (w : World)
  : option World :=
  do w1 <- Consumer_on_new_state this s w;
  do c <- deref (consumers w1) this;
  Some (with_consumers w1 (store (consumers w1) this (mkConsumer (channel_ c) s))).

(** ** Channel *)

(** [Channel() noexcept {}] *)
Definition Channel_new (w : World) : addr * World :=
  let '(a, h) := alloc (channels w) (mkChannel [] None) in
  (a, with_channels w h).

(** [const std::vector<Consumer*>& consumers() const] *)
Definition Channel_consumers (this : addr) (w : World) : option (list addr) :=
  consumers_ <$> deref (channels w) this.

(** [Producer* producer() const] *)
Definition Channel_producer (this : addr) (w : World) : option (option addr) :=
  producer_ <$> deref (channels w) this.

(** [void set_producer(Producer* p)
      { producer_ = p; if (p) p->channels_.emplace_back(this); }] *)
Definition Channel_set_producer (this : addr) (p : option addr) (w : World)
  : option World :=
  do ch <- deref (channels w) this;
  let w1 := with_channels w
              (store (channels w) this (mkChannel (consumers_ ch) p)) in
  match p with
  | None => Some w1
  | Some pa =>
      do pr <- deref (producers w1) pa;
      Some (with_producers w1
              (store (producers w1) pa (mkProducer (channels_ pr ++ [this]))))
  end.

(** [void internal_add_consumer(Consumer* c) { consumers_.push_back(c); }] *)
Definition Channel_internal_add_consumer (this : addr) (c : addr) (w : World)
  : option World :=
  do ch <- deref (channels w) this;
  Some (with_channels w
          (store (channels w) this
             (mkChannel (consumers_ ch ++ [c]) (producer_ ch)))).

(** [void internal_produce(const State& s)
      { for (auto* cons : consumers_) cons->internal_produce(s); }] *)
Definition Channel_internal_produce (s : State) (this : addr) (w : World)
  : option World :=
  do ch <- deref (channels w) this;
  for_each (Consumer_internal_produce s) (consumers_ ch) w.

(** ** Producer *)

(** [const std::vector<Channel*>& channels() const] *)
Definition Producer_channels (this : addr) (w : World) : option (list addr) :=
  channels_ <$> deref (producers w) this.

(** [void internal_remove_channel(Channel& ch) { std::erase(channels_, &ch); }]
    Its counterpart [internal_add_channel] has no caller ([set_producer]
    appends to [channels_] itself) and is left out. *)
Definition Producer_internal_remove_channel (this : addr) (ch : addr) (w : World)
  : option World :=
  do pr <- deref (producers w) this;
  Some (with_producers w
          (store (producers w) this (mkProducer (erase (channels_ pr) ch)))).

(** [Producer(Channel& ch) { ch.set_producer(this); }] *)
Definition Producer_new (ch : addr) (w : World) : option (addr * World) :=
  let '(a, h) := alloc (producers w) (mkProducer []) in
  do w' <- Channel_set_producer ch (Some a) (with_producers w h);
  Some (a, w').

(** [void produce(const State& s)
      { for (auto* chan : channels_) chan->internal_produce(s); }] *)
Definition Producer_produce (this : addr) (s : State) (w : World)
  : option World :=
  do pr <- deref (producers w) this;
  for_each (Channel_internal_produce s) (channels_ pr) w.

(** [~Producer() { for (auto* ch : channels_) ch->set_producer(nullptr); }] *)
Definition Producer_destroy (this : addr) (w : World) : option World :=
  do pr <- deref (producers w) this;
  do w1 <- for_each (λ ch, Channel_set_producer ch None) (channels_ pr) w;
  Some (with_producers w1 (free (producers w1) this)).

(** ** Construction and destruction of the other two classes *)

(** The assignment [c->channel_ = nullptr], which [Channel], a friend of
    [Consumer], makes in its destructor. *)
Definition Consumer_clear_channel (c : addr) (w : World) : option World :=
  do cv <- deref (consumers w) c;
  Some (with_consumers w (store (consumers w) c (mkConsumer None (state_ cv)))).

(** [~Channel()
      { for (auto* c : consumers_) c->channel_ = nullptr;
        if (producer_) producer_->internal_remove_channel( *this ); }] *)
Definition Channel_destroy (this : addr) (w : World) : option World :=
  do ch <- deref (channels w) this;
  do w1 <- for_each Consumer_clear_channel (consumers_ ch) w;
  do w2 <- match producer_ ch with
           | None => Some w1
           | Some pa => Producer_internal_remove_channel pa this w1
           end;
  Some (with_channels w2 (free (channels w2) this)).

(** The value of a default-initialised [State] placed in storage that held
    [junk]. *)
Definition default_initialised (junk : State) : State :=
  match default_initialisation with
  | Constructs d => d
  | LeavesIndeterminate _ => junk
  end.


(** [Consumer(Channel& ch) : channel_(&ch) { ch.internal_add_consumer(this); }]
    The constructor names only [channel_]; the member [State state_;] is
    default-initialised, in storage that held [junk]. *)
Definition Consumer_new (ch : addr) (junk : State) (w : World)
  : option (addr * World) :=
  let '(a, h) := alloc (consumers w)
                   (mkConsumer (Some ch) (default_initialised junk)) in
  do w' <- Channel_internal_add_consumer ch a (with_consumers w h);
  Some (a, w').

(** [virtual ~Consumer()
      { if (channel_) std::erase(channel_->consumers_, this); }] *)
Definition Consumer_destroy (this : addr) (w : World) : option World :=
  do c <- deref (consumers w) this;
  do w1 <- match channel_ c with
           | None => Some w
           | Some cha =>
               do ch <- deref (channels w) cha;
               Some (with_channels w
                       (store (channels w) cha
                          (mkChannel (erase (consumers_ ch) this) (producer_ ch))))
           end;
  Some (with_consumers w1 (free (consumers w1) this)).

(** ** Programs over the interface *)

(** One call a client can make.  Objects are named by their addresses, which
    are the heap sizes at the time of construction; [NewConsumer] also says
    what the storage of the new consumer's [state_] held.  [Channel] cannot be
    copied; the copy operations the compiler generates for [Producer] and
    [Consumer] are no part of the interface and are not modelled. *)
Inductive Op :=
  | NewChannel
  | NewProducer (ch : addr)
  | NewConsumer (ch : addr) (junk : State)
  | SetProducer (ch : addr) (p : option addr)
  | Produce (p : addr) (s : State)
  | DestroyChannel (ch : addr)
  | DestroyProducer (p : addr)
  | DestroyConsumer (c : addr).

Definition step (o : Op) (w : World) : option World :=
  match o with
  | NewChannel => Some (snd (Channel_new w))
  | NewProducer ch => snd <$> Producer_new ch w
  | NewConsumer ch junk => snd <$> Consumer_new ch junk w
  | SetProducer ch p => Channel_set_producer ch p w
  | Produce p s => Producer_produce p s w
  | DestroyChannel ch => Channel_destroy ch w
  | DestroyProducer p => Producer_destroy p w
  | DestroyConsumer c => Consumer_destroy c w
  end.

Definition run (ops : list Op) (w : World) : option World :=
  for_each step ops w.

(** The states a program can be in: those some sequence of calls, none of
    which is undefined, leads to from the empty state. *)
Definition reachable (w : World) : Prop :=
  ∃ ops, run ops empty_world = Some w.

(** ** What a broadcast reaches *)

Definition live {A} (h : heap A) (a : addr) : Prop := is_Some (deref h a).

(** The consumers registered on [ch]; none if [ch] is not alive. *)
Definition consumers_of (w : World) (ch : addr) : list addr :=
  default [] (Channel_consumers ch w).

(** The consumers on the channels [chs], channel by channel, each channel's
    consumers in their order of registration. *)
Definition receivers (w : World) (chs : list addr) : list addr :=
  chs ≫= consumers_of w.

(** [delivered s l w w']: going from [w] to [w'], the consumers in [l] had
    [state_] set to [s], [on_new_state(s)] ran once for each entry of [l] in
    order, and nothing else changed. *)
Definition delivered (s : State) (l : list addr) (w w' : World) : Prop :=
  producers w' = producers w ∧
  channels w' = channels w ∧
  (∀ c, deref (consumers w') c =
        (λ cv, if decide (c ∈ l) then mkConsumer (channel_ cv) s else cv)
          <$> deref (consumers w) c) ∧
  ∃ evs, hooks w' = hooks w ++ evs ∧
         hc_consumer <$> evs = l ∧
         Forall (λ e, hc_arg e = s) evs.

(** [severed l w w']: the consumers in [l] lost their [channel_]. *)
Definition severed (l : list addr) (w w' : World) : Prop :=
  producers w' = producers w ∧ channels w' = channels w ∧ hooks w' = hooks w ∧
  ∀ c, deref (consumers w') c =
       (λ cv, if decide (c ∈ l) then mkConsumer None (state_ cv) else cv)
         <$> deref (consumers w) c.

(** [unbound l w w']: the channels in [l] lost their [producer_]. *)
Definition unbound (l : list addr) (w w' : World) : Prop :=
  producers w' = producers w ∧ consumers w' = consumers w ∧ hooks w' = hooks w ∧
  ∀ ch, deref (channels w') ch =
        (λ chv, if decide (ch ∈ l) then mkChannel (consumers_ chv) None else chv)
          <$> deref (channels w) ch.

(** ** Consistency of the links *)

(** Whoever is on a channel's [consumers_] is alive and points back to it. *)
Definition consumers_linked (w : World) : Prop :=
  ∀ ch chv c, deref (channels w) ch = Some chv → c ∈ consumers_ chv →
    ∃ cv, deref (consumers w) c = Some cv ∧ channel_ cv = Some ch.

(** A consumer's [channel_], when set, is alive and lists the consumer. *)
Definition channel_linked (w : World) : Prop :=
  ∀ c cv ch, deref (consumers w) c = Some cv → channel_ cv = Some ch →
    ∃ chv, deref (channels w) ch = Some chv ∧ c ∈ consumers_ chv.

(** A channel's [producer_], when set, is alive and lists the channel. *)
Definition producer_linked (w : World) : Prop :=
  ∀ ch chv p, deref (channels w) ch = Some chv → producer_ chv = Some p →
    ∃ pv, deref (producers w) p = Some pv ∧ ch ∈ channels_ pv.

Definition links_ok (w : World) : Prop :=
  consumers_linked w ∧ channel_linked w ∧ producer_linked w.

(** No pointer held by a live object refers to a destroyed one: the channels
    on a producer's [channels_], the consumers on a channel's [consumers_], a
    channel's [producer_] and a consumer's [channel_]. *)
Definition no_dangling (w : World) : Prop :=
  (∀ p pv ch, deref (producers w) p = Some pv → ch ∈ channels_ pv →
     live (channels w) ch) ∧
  (∀ ch chv c, deref (channels w) ch = Some chv → c ∈ consumers_ chv →
     live (consumers w) c) ∧
  (∀ ch chv p, deref (channels w) ch = Some chv → producer_ chv = Some p →
     live (producers w) p) ∧
  (∀ c cv ch, deref (consumers w) c = Some cv → channel_ cv = Some ch →
     live (channels w) ch).

(** ** Further invariants *)

(** No consumer is on a channel's [consumers_] twice. *)
Definition consumers_nodup (w : World) : Prop :=
  ∀ ch chv, deref (channels w) ch = Some chv → NoDup (consumers_ chv).

(** Every channel on a producer's [channels_] is alive and has that producer
    as its [producer_]. *)
Definition producers_linked (w : World) : Prop :=
  ∀ p pv ch, deref (producers w) p = Some pv → ch ∈ channels_ pv →
    ∃ chv, deref (channels w) ch = Some chv ∧ producer_ chv = Some p.

(** No channel is on a producer's [channels_] twice. *)
Definition channels_nodup (w : World) : Prop :=
  ∀ p pv, deref (producers w) p = Some pv → NoDup (channels_ pv).

(** ** Binding a channel only while it has no producer *)

(** A client that never displaces a producer calls the constructor of
    [Producer] and [set_producer] only on a channel whose [producer()] is
    [nullptr]; this rules out [set_producer(nullptr)] on a bound channel as
    well.  [binds_unbound o w] tells whether the call [o] keeps to this in
    the state [w]. *)
Definition binds_unbound (o : Op) (w : World) : bool :=
  match o with
  | NewProducer ch | SetProducer ch _ =>
      bool_decide (Channel_producer ch w = Some None)
  | _ => true
  end.

Definition step_disciplined (o : Op) (w : World) : option World :=
  if binds_unbound o w then step o w else None.

Definition run_disciplined (ops : list Op) (w : World) : option World :=
  for_each step_disciplined ops w.

(** The states such a client can be in. *)
Definition disciplined (w : World) : Prop :=
  ∃ ops, run_disciplined ops empty_world = Some w.

(** ** The history of the hook *)





End ITC.

(** ** Test scenarios *)

(** Counters as states, as with [unsigned]: left indeterminate by
    default-initialisation, zero when value-initialised. *)
#[export] Instance nat_AState : AState nat :=
  {| default_initialisation := LeavesIndeterminate 0 |}.

(** A state type with a default member initialiser, as with
    [struct Level { unsigned level = 3; };]. *)
Record Level := mkLevel { level : nat }.

#[export] Instance Level_AState : AState Level :=
  {| default_initialisation := Constructs (mkLevel 3) |}.

(** [Channel ch; Producer p(ch); ch.set_producer(nullptr);] and then the end
    of [ch]'s lifetime, with [p] still alive. *)
Definition unbind_then_destroy : list (@Op nat) :=
  [NewChannel; NewProducer 0; SetProducer 0 None; DestroyChannel 0].

(** One channel with producer 0 and consumers 0 and 1. *)
Definition fan_out_ops : list (@Op nat) :=
  [NewChannel; NewProducer 0; NewConsumer 0 0; NewConsumer 0 0].

Definition fan_out_world : @World nat :=
  mkWorld [Some (mkProducer [0])]
          [Some (mkChannel [0; 1] (Some 0))]
          [Some (mkConsumer (Some 0) 0); Some (mkConsumer (Some 0) 0)]
          [].

(** Producer 0 on channels 0 and 1, consumer 0 on channel 0 and consumer 1 on
    channel 1; producer 1 on channel 2. *)
Definition two_channel_ops : list (@Op nat) :=
  [NewChannel; NewChannel; NewProducer 0; SetProducer 1 (Some 0);
   NewConsumer 0 0; NewConsumer 1 0; NewChannel; NewProducer 2].

Definition two_channel_world : @World nat :=
  mkWorld [Some (mkProducer [0; 1]); Some (mkProducer [2])]
          [Some (mkChannel [0] (Some 0)); Some (mkChannel [1] (Some 0));
           Some (mkChannel [] (Some 1))]
          [Some (mkConsumer (Some 0) 0); Some (mkConsumer (Some 1) 0)]
          [].

(** The world of [fan_out_ops] after [produce(5)] and the destruction of the
    channel: both consumers are severed and hold 5. *)
Definition severed_ops : list (@Op nat) :=
  fan_out_ops ++ [Produce 0 5; DestroyChannel 0].

Definition severed_world : @World nat :=
  mkWorld [Some (mkProducer [])]
          [None]
          [Some (mkConsumer None 5); Some (mkConsumer None 5)]
          [mkHookCall 0 0 5; mkHookCall 1 0 5].

(** What a program may go on to do with [severed_world]: a second channel
    with its own producer and consumer, [produce] on the old and on the new
    producer, and the destruction of the other severed consumer. *)
Definition later_ops : list (@Op nat) :=
  [NewChannel; NewProducer 1; NewConsumer 1 0; Produce 0 8; Produce 1 9;
   DestroyConsumer 0].

Definition later_world : @World nat :=
  mkWorld [Some (mkProducer []); Some (mkProducer [1])]
          [None; Some (mkChannel [2] (Some 1))]
          [None; Some (mkConsumer None 5); Some (mkConsumer (Some 1) 9)]
          [mkHookCall 0 0 5; mkHookCall 1 0 5; mkHookCall 2 0 9].

(** The test of the reaction order: one consumer and the counter values 1, 2
    and 3 produced in turn. *)
Definition counter_ops : list (@Op nat) :=
  [NewChannel; NewProducer 0; NewConsumer 0 0;
   Produce 0 1; Produce 0 2; Produce 0 3].

(** A channel rebound from producer 0 to producer 1 and then destroyed. *)
Definition rebind_then_destroy : list (@Op nat) :=
  [NewChannel; NewProducer 0; NewChannel; NewProducer 1;
   SetProducer 0 (Some 1); DestroyChannel 0].

(** Channel 0, first bound to producer 0 and then rebound to producer 1 (the
    producer of channel 1), with consumer 0. *)
Definition rebound_ops : list (@Op nat) :=
  [NewChannel; NewProducer 0; NewChannel; NewProducer 1;
   SetProducer 0 (Some 1); NewConsumer 0 0].

Definition rebound_world : @World nat :=
  mkWorld [Some (mkProducer [0]); Some (mkProducer [1; 0])]
          [Some (mkChannel [0] (Some 1)); Some (mkChannel [] (Some 1))]
          [Some (mkConsumer (Some 0) 0)]
          [].

(** Channel 0 with producer 0 and consumers 0 and 1; a second channel that
    was bound to producer 0, unbound again with [set_producer(nullptr)] and
    then destroyed.  Producer 0 still lists it. *)
Definition stale_ops : list (@Op nat) :=
  [NewChannel; NewProducer 0; NewConsumer 0 0; NewConsumer 0 0;
   NewChannel; SetProducer 1 (Some 0); SetProducer 1 None; DestroyChannel 1].

Definition stale_world : @World nat :=
  mkWorld [Some (mkProducer [0; 1])]
          [Some (mkChannel [0; 1] (Some 0)); None]
          [Some (mkConsumer (Some 0) 0); Some (mkConsumer (Some 0) 0)]
          [].

(** A consumer severed by the destruction of its channel, which the producer
    still lists because it had been unbound with [set_producer(nullptr)]. *)
Definition severed_stale_ops : list (@Op nat) :=
  [NewChannel; NewProducer 0; NewConsumer 0 0; SetProducer 0 None;
   DestroyChannel 0].

Definition severed_stale_world : @World nat :=
  mkWorld [Some (mkProducer [0])]
          [None]
          [Some (mkConsumer None 0)]
          [].

(** * Properties *)

(** ** Heap cells *)

Section Heap.
Context {A : Type}.
Implicit Types (h : heap A) (a b : addr) (x y : A).

Lemma deref_lookup h a x : deref h a = Some x ↔ h !! a = Some (Some x).
Proof.
  unfold deref. destruct (h !! a) as [[z|]|]; split; intros E; congruence.
Qed.

Lemma deref_length h a x : deref h a = Some x → a < length h.
Proof. rewrite deref_lookup. apply lookup_lt_Some. Qed.

Lemma deref_fresh h : deref h (length h) = None.
Proof.
  destruct (deref h (length h)) as [x|] eqn:E; [|done].
  apply deref_length in E. lia.
Qed.

Lemma deref_store h a x y b :
  deref h a = Some y →
  deref (store h a x) b = if decide (b = a) then Some x else deref h b.
Proof.
  intros Hy. unfold deref at 1, store. case_decide as Hb.
  - subst b. rewrite list_lookup_insert_eq; [done|]. by eapply deref_length.
  - rewrite list_lookup_insert_ne; [done|congruence].
Qed.

Lemma deref_free h a b :
  deref (free h a) b = if decide (b = a) then None else deref h b.
Proof.
  unfold deref, free. case_decide as Hb.
  - subst b. destruct (decide (a < length h)) as [Hlt|Hge].
    + by rewrite list_lookup_insert_eq.
    + rewrite list_insert_ge; [|lia]. rewrite lookup_ge_None_2; [done|lia].
  - rewrite list_lookup_insert_ne; [done|congruence].
Qed.

Lemma deref_alloc h x b :
  deref (h ++ [Some x]) b = if decide (b = length h) then Some x else deref h b.
Proof.
  unfold deref. case_decide as Hb.
  - subst b. by rewrite list_lookup_middle.
  - destruct (decide (b < length h)) as [Hlt|Hge].
    + by rewrite lookup_app_l.
    + rewrite !lookup_ge_None_2; [done|lia|rewrite length_app; simpl; lia].
Qed.

Lemma destroyed_not_live h a : destroyed h a → deref h a = None.
Proof. unfold destroyed, deref. by intros ->. Qed.

Lemma destroyed_store h a b x y :
  deref h a = Some y → destroyed h b → destroyed (store h a x) b.
Proof.
  unfold destroyed, store. intros Ha Hb.
  rewrite list_lookup_insert_ne; [done|].
  intros ->. apply destroyed_not_live in Hb. congruence.
Qed.

Lemma destroyed_free h a b : destroyed h b → destroyed (free h a) b.
Proof.
  unfold destroyed, free. intros Hb. destruct (decide (a = b)) as [->|Hne].
  - rewrite list_lookup_insert_eq; [done|]. by eapply lookup_lt_Some.
  - by rewrite list_lookup_insert_ne.
Qed.

Lemma destroyed_alloc h b x : destroyed h b → destroyed (h ++ [Some x]) b.
Proof. unfold destroyed. intros Hb. by apply lookup_app_l_Some. Qed.

Lemma free_destroys h a x : deref h a = Some x → destroyed (free h a) a.
Proof.
  unfold destroyed, free. intros Ha. rewrite list_lookup_insert_eq; [done|].
  by eapply deref_length.
Qed.

End Heap.

(** ** Loops *)

Section Loops.
Context {A W : Type}.
Implicit Types (body : A → W → option W) (l : list A) (w : W).

Lemma for_each_app body l1 l2 w :
  for_each body (l1 ++ l2) w =
  match for_each body l1 w with
  | Some w1 => for_each body l2 w1
  | None => None
  end.
Proof.
  revert w. induction l1 as [|x l1 IH]; intros w; simpl; [done|].
  destruct (body x w); [apply IH|done].
Qed.

(** A relation that every iteration establishes, and that is reflexive and
    transitive, holds between the states before and after the loop. *)
Lemma for_each_rel (R : W → W → Prop) body l w w' :
  (∀ v, R v v) →
  (∀ u v z, R u v → R v z → R u z) →
  (∀ x u v, x ∈ l → body x u = Some v → R u v) →
  for_each body l w = Some w' → R w w'.
Proof.
  intros Hrefl Htrans. revert w. induction l as [|x l IH]; intros w Hbody; simpl.
  - intros [= <-]. apply Hrefl.
  - destruct (body x w) as [w1|] eqn:E; [|done]. intros Hl.
    apply Htrans with w1.
    + eapply Hbody; [left|done].
    + apply IH; [|done]. intros y u v Hy. apply Hbody. by right.
Qed.

End Loops.

(** ** Broadcasting *)

Section Broadcast.
Context {State : Type}.
Implicit Types (s : State) (w : @World State) (c ch p : addr) (l chs : list addr).

Lemma Consumer_internal_produce_Some s c w cv :
  deref (consumers w) c = Some cv →
  Consumer_internal_produce s c w =
  Some (mkWorld (producers w) (channels w)
          (store (consumers w) c (mkConsumer (channel_ cv) s))
          (hooks w ++ [mkHookCall c (state_ cv) s])).
Proof.
  intros E. unfold Consumer_internal_produce, Consumer_on_new_state,
    Consumer_state. rewrite E. simpl. by rewrite E.
Qed.

Lemma Consumer_internal_produce_live s c w w' :
  Consumer_internal_produce s c w = Some w' → live (consumers w) c.
Proof.
  unfold Consumer_internal_produce, Consumer_on_new_state, Consumer_state, live.
  destruct (deref (consumers w) c); [eauto|done].
Qed.

Lemma delivered_nil s w : delivered s [] w w.
Proof.
  repeat split.
  - intros c. by destruct (deref (consumers w) c).
  - exists []. rewrite app_nil_r. split; [reflexivity|]. split; [reflexivity|constructor].
Qed.

Lemma delivered_cons s c l w cv w' :
  deref (consumers w) c = Some cv →
  delivered s l
    (mkWorld (producers w) (channels w)
       (store (consumers w) c (mkConsumer (channel_ cv) s))
       (hooks w ++ [mkHookCall c (state_ cv) s])) w' →
  delivered s (c :: l) w w'.
Proof.
  intros E (Hp & Hc & Hd & evs & Hh & Hev & Harg). simpl in *.
  repeat split; [done|done| |].
  - intros c'. rewrite Hd, (deref_store _ _ _ _ _ E).
    destruct (decide (c' = c)) as [->|Hne].
    + rewrite E. simpl.
      destruct (decide (c ∈ c :: l)) as [_|Hn]; [|exfalso; apply Hn; left].
      by destruct (decide (c ∈ l)).
    + destruct (deref (consumers w) c') as [cv'|]; simpl; [|done].
      destruct (decide (c' ∈ l)) as [Hin|Hnin].
      * rewrite decide_True; [done|by right].
      * rewrite decide_False; [done|]. rewrite elem_of_cons. tauto.
  - exists (mkHookCall c (state_ cv) s :: evs). rewrite Hh, <- app_assoc.
    split; [done|]. split; [rewrite fmap_cons; by rewrite Hev|]. by constructor.
Qed.

(** The loop of [Channel::internal_produce] runs to its end when every
    consumer on the list is alive, and then has delivered to all of them. *)
Lemma deliver_loop s l w :
  Forall (live (consumers w)) l →
  ∃ w', for_each (Consumer_internal_produce s) l w = Some w' ∧
        delivered s l w w'.
Proof.
  revert w. induction l as [|c l IH]; intros w Hl; simpl.
  - eexists. split; [done|apply delivered_nil].
  - apply Forall_cons in Hl as [Hc Hl]. destruct Hc as [cv E].
    rewrite (Consumer_internal_produce_Some _ _ _ _ E).
    destruct (IH (mkWorld (producers w) (channels w)
       (store (consumers w) c (mkConsumer (channel_ cv) s))
       (hooks w ++ [mkHookCall c (state_ cv) s]))) as (w' & Hrun & Hd).
    + simpl. eapply Forall_impl; [exact Hl|]. intros c' Hc'. unfold live.
      rewrite (deref_store _ _ _ _ _ E). by case_decide.
    + exists w'. split; [done|]. by eapply delivered_cons.
Qed.

Lemma deliver_loop_live s l w w' :
  for_each (Consumer_internal_produce s) l w = Some w' →
  Forall (live (consumers w)) l.
Proof.
  revert w. induction l as [|c l IH]; intros w; simpl; [by constructor|].
  destruct (Consumer_internal_produce s c w) as [w1|] eqn:E; [|done].
  intros Hrun. pose proof (Consumer_internal_produce_live _ _ _ _ E) as [cv Hcv].
  constructor; [by exists cv|].
  rewrite (Consumer_internal_produce_Some _ _ _ _ Hcv) in E.
  injection E as <-. apply IH in Hrun. simpl in Hrun.
  eapply Forall_impl; [exact Hrun|]. intros c'. unfold live.
  rewrite (deref_store _ _ _ _ _ Hcv). case_decide; [subst; by eauto|done].
Qed.

Lemma deliver_loop_inv s l w w' :
  for_each (Consumer_internal_produce s) l w = Some w' →
  Forall (live (consumers w)) l ∧ delivered s l w w'.
Proof.
  intros Hrun. pose proof (deliver_loop_live _ _ _ _ Hrun) as Hl.
  split; [done|]. destruct (deliver_loop s l w Hl) as (w'' & Hrun' & Hd).
  congruence.
Qed.

Lemma receivers_cons w ch chs :
  receivers w (ch :: chs) = consumers_of w ch ++ receivers w chs.
Proof. done. Qed.

Lemma consumers_of_live w ch chv :
  deref (channels w) ch = Some chv → consumers_of w ch = consumers_ chv.
Proof. intros E. unfold consumers_of, Channel_consumers. by rewrite E. Qed.

Lemma receivers_ext w w' chs :
  channels w' = channels w → receivers w' chs = receivers w chs.
Proof.
  intros E. unfold receivers, consumers_of, Channel_consumers. by rewrite E.
Qed.

(** The nested loops of [Producer::produce] are one loop over [receivers]. *)
Lemma produce_loop_flat s chs w :
  Forall (live (channels w)) chs →
  for_each (Channel_internal_produce s) chs w =
  for_each (Consumer_internal_produce s) (receivers w chs) w.
Proof.
  revert w. induction chs as [|ch chs IH]; intros w Hl; [done|].
  apply Forall_cons in Hl as [Hc Hl]. destruct Hc as [chv E].
  rewrite receivers_cons, for_each_app, (consumers_of_live _ _ _ E). simpl.
  unfold Channel_internal_produce at 1. rewrite E.
  destruct (for_each (Consumer_internal_produce s) (consumers_ chv) w)
    as [w1|] eqn:E1; [|done].
  apply deliver_loop_inv in E1 as (_ & _ & Hc & _).
  rewrite <- (receivers_ext w w1 chs Hc). apply IH. by rewrite Hc.
Qed.

Lemma produce_loop_live s chs w w' :
  for_each (Channel_internal_produce s) chs w = Some w' →
  Forall (live (channels w)) chs.
Proof.
  revert w. induction chs as [|ch chs IH]; intros w; simpl; [by constructor|].
  unfold Channel_internal_produce at 1.
  destruct (deref (channels w) ch) as [chv|] eqn:E; [|done].
  destruct (for_each (Consumer_internal_produce s) (consumers_ chv) w)
    as [w1|] eqn:E1; [|done].
  intros Hrun. apply deliver_loop_inv in E1 as (_ & _ & Hc & _).
  apply IH in Hrun. rewrite Hc in Hrun. constructor; [by exists chv|done].
Qed.

(** [produce] is defined exactly when the producer, its channels and their
    consumers are alive, and it then delivers to [receivers]. *)
Lemma Producer_produce_Some p s w pv :
  deref (producers w) p = Some pv →
  Forall (live (channels w)) (channels_ pv) →
  Forall (live (consumers w)) (receivers w (channels_ pv)) →
  ∃ w', Producer_produce p s w = Some w' ∧
        delivered s (receivers w (channels_ pv)) w w'.
Proof.
  intros E Hch Hco. unfold Producer_produce. rewrite E.
  rewrite (produce_loop_flat _ _ _ Hch). by apply deliver_loop.
Qed.

Lemma Producer_produce_inv p s w w' :
  Producer_produce p s w = Some w' →
  ∃ pv, deref (producers w) p = Some pv ∧
        Forall (live (channels w)) (channels_ pv) ∧
        Forall (live (consumers w)) (receivers w (channels_ pv)) ∧
        delivered s (receivers w (channels_ pv)) w w'.
Proof.
  unfold Producer_produce. destruct (deref (producers w) p) as [pv|]; [|done].
  intros Hrun. exists pv. split; [done|].
  pose proof (produce_loop_live _ _ _ _ Hrun) as Hch.
  rewrite (produce_loop_flat _ _ _ Hch) in Hrun.
  apply deliver_loop_inv in Hrun as [Hco Hd]. done.
Qed.

End Broadcast.

(** ** The loops of the destructors *)

Section Destructors.
Context {State : Type}.
Implicit Types (s : State) (w : @World State) (c ch p : addr) (l chs : list addr).

Lemma sever_loop l w :
  Forall (live (consumers w)) l →
  ∃ w', for_each Consumer_clear_channel l w = Some w' ∧ severed l w w'.
Proof.
  revert w. induction l as [|c l IH]; intros w Hl; simpl.
  - eexists. split; [done|]. repeat split.
    intros c. by destruct (deref (consumers w) c).
  - apply Forall_cons in Hl as [Hc Hl]. destruct Hc as [cv E].
    unfold Consumer_clear_channel at 1. rewrite E.
    destruct (IH (with_consumers w
                    (store (consumers w) c (mkConsumer None (state_ cv)))))
      as (w' & Hrun & Hp & Hch & Hh & Hd).
    + simpl. eapply Forall_impl; [exact Hl|]. intros c' Hc'. unfold live.
      rewrite (deref_store _ _ _ _ _ E). by case_decide.
    + exists w'. split; [done|]. simpl in *. repeat split; [done..|].
      intros c'. rewrite Hd, (deref_store _ _ _ _ _ E).
      destruct (decide (c' = c)) as [->|Hne].
      * rewrite E. simpl.
        destruct (decide (c ∈ c :: l)) as [_|Hn]; [|exfalso; apply Hn; left].
        by destruct (decide (c ∈ l)).
      * destruct (deref (consumers w) c') as [cv'|]; simpl; [|done].
        destruct (decide (c' ∈ l)) as [Hin|Hnin].
        -- rewrite decide_True; [done|by right].
        -- rewrite decide_False; [done|]. rewrite elem_of_cons. tauto.
Qed.

Lemma sever_loop_live l w w' :
  for_each Consumer_clear_channel l w = Some w' → Forall (live (consumers w)) l.
Proof.
  revert w. induction l as [|c l IH]; intros w; simpl; [by constructor|].
  unfold Consumer_clear_channel at 1.
  destruct (deref (consumers w) c) as [cv|] eqn:E; [|done].
  intros Hrun. constructor; [by exists cv|].
  apply IH in Hrun. simpl in Hrun.
  eapply Forall_impl; [exact Hrun|]. intros c'. unfold live.
  rewrite (deref_store _ _ _ _ _ E). case_decide; [subst; by eauto|done].
Qed.

Lemma sever_loop_inv l w w' :
  for_each Consumer_clear_channel l w = Some w' →
  Forall (live (consumers w)) l ∧ severed l w w'.
Proof.
  intros Hrun. pose proof (sever_loop_live _ _ _ Hrun) as Hl.
  split; [done|]. destruct (sever_loop l w Hl) as (w'' & Hrun' & Hd).
  congruence.
Qed.

Lemma unbind_loop l w :
  Forall (live (channels w)) l →
  ∃ w', for_each (λ ch, Channel_set_producer ch None) l w = Some w' ∧
        unbound l w w'.
Proof.
  revert w. induction l as [|ch l IH]; intros w Hl; simpl.
  - eexists. split; [done|]. repeat split.
    intros ch. by destruct (deref (channels w) ch).
  - apply Forall_cons in Hl as [Hc Hl]. destruct Hc as [chv E].
    unfold Channel_set_producer at 1. rewrite E.
    destruct (IH (with_channels w
                    (store (channels w) ch (mkChannel (consumers_ chv) None))))
      as (w' & Hrun & Hp & Hco & Hh & Hd).
    + simpl. eapply Forall_impl; [exact Hl|]. intros c' Hc'. unfold live.
      rewrite (deref_store _ _ _ _ _ E). by case_decide.
    + exists w'. split; [done|]. simpl in *. repeat split; [done..|].
      intros ch'. rewrite Hd, (deref_store _ _ _ _ _ E).
      destruct (decide (ch' = ch)) as [->|Hne].
      * rewrite E. simpl.
        destruct (decide (ch ∈ ch :: l)) as [_|Hn]; [|exfalso; apply Hn; left].
        by destruct (decide (ch ∈ l)).
      * destruct (deref (channels w) ch') as [chv'|]; simpl; [|done].
        destruct (decide (ch' ∈ l)) as [Hin|Hnin].
        -- rewrite decide_True; [done|by right].
        -- rewrite decide_False; [done|]. rewrite elem_of_cons. tauto.
Qed.

Lemma unbind_loop_live l w w' :
  for_each (λ ch, Channel_set_producer ch None) l w = Some w' →
  Forall (live (channels w)) l.
Proof.
  revert w. induction l as [|ch l IH]; intros w; simpl; [by constructor|].
  unfold Channel_set_producer at 1.
  destruct (deref (channels w) ch) as [chv|] eqn:E; [|done].
  intros Hrun. constructor; [by exists chv|].
  apply IH in Hrun. simpl in Hrun.
  eapply Forall_impl; [exact Hrun|]. intros c'. unfold live.
  rewrite (deref_store _ _ _ _ _ E). case_decide; [subst; by eauto|done].
Qed.

Lemma unbind_loop_inv l w w' :
  for_each (λ ch, Channel_set_producer ch None) l w = Some w' →
  Forall (live (channels w)) l ∧ unbound l w w'.
Proof.
  intros Hrun. pose proof (unbind_loop_live _ _ _ Hrun) as Hl.
  split; [done|]. destruct (unbind_loop l w Hl) as (w'' & Hrun' & Hd).
  congruence.
Qed.

End Destructors.

(** ** The links stay consistent *)

Section Links.
Context {State : Type} `{!AState State}.
Implicit Types (s : State) (w : @World State) (c ch p : addr) (l chs : list addr).

Lemma elem_of_erase l x y : y ∈ erase l x ↔ y ∈ l ∧ y ≠ x.
Proof. unfold erase. rewrite list_elem_of_filter. tauto. Qed.

Lemma links_ok_empty : links_ok (@empty_world State).
Proof. repeat split; intros ? ? ? E; by destruct (_ : addr). Qed.

Lemma links_ok_new_channel w : links_ok w → links_ok (snd (Channel_new w)).
Proof.
  intros (H1 & H2 & H3). unfold Channel_new, alloc. simpl.
  split; [|split].
  - intros ch chv c. simpl. rewrite deref_alloc. case_decide.
    + intros [= <-] Hin. by apply elem_of_nil in Hin.
    + apply H1.
  - intros c cv ch E Ech. simpl in *.
    destruct (H2 _ _ _ E Ech) as (chv & Echv & Hin). exists chv.
    rewrite deref_alloc. case_decide; [|done].
    subst ch. by rewrite deref_fresh in Echv.
  - intros ch chv p. simpl. rewrite deref_alloc. case_decide.
    + by intros [= <-].
    + apply H3.
Qed.

Lemma links_ok_alloc_producer w pv :
  links_ok w → links_ok (with_producers w (producers w ++ [Some pv])).
Proof.
  intros (H1 & H2 & H3). split; [|split]; [done|done|].
  intros ch chv p E Ep. simpl in *.
  destruct (H3 _ _ _ E Ep) as (pv' & Epv & Hin). exists pv'.
  rewrite deref_alloc. case_decide; [|done].
  subst p. by rewrite deref_fresh in Epv.
Qed.

Lemma links_ok_set_producer ch po w w' :
  links_ok w → Channel_set_producer ch po w = Some w' → links_ok w'.
Proof.
  intros (H1 & H2 & H3). unfold Channel_set_producer.
  destruct (deref (channels w) ch) as [chv|] eqn:E; [|done].
  assert (consumers_linked (with_channels w
            (store (channels w) ch (mkChannel (consumers_ chv) po)))) as H1'.
  { intros ch' chv' c. simpl. rewrite (deref_store _ _ _ _ _ E). case_decide.
    - subst ch'. intros [= <-]. simpl. by apply H1.
    - apply H1. }
  assert (channel_linked (with_channels w
            (store (channels w) ch (mkChannel (consumers_ chv) po)))) as H2'.
  { intros c cv ch' Ec Ech. simpl in *.
    destruct (H2 _ _ _ Ec Ech) as (chv' & Echv & Hin).
    rewrite (deref_store _ _ _ _ _ E). case_decide.
    - subst ch'. eexists. split; [done|]. simpl. congruence.
    - by exists chv'. }
  destruct po as [pa|].
  - simpl. destruct (deref (producers w) pa) as [pv|] eqn:Epa; [|done].
    intros [= <-]. split; [|split]; [done|done|].
    intros ch' chv' p. simpl. rewrite (deref_store _ _ _ _ _ E).
    rewrite (deref_store _ _ _ _ _ Epa). case_decide.
    + subst ch'. intros [= <-] [= <-]. rewrite decide_True by done.
      eexists. split; [done|]. simpl. apply elem_of_app. right. by left.
    + intros Echv Ep. destruct (H3 _ _ _ Echv Ep) as (pv' & Epv & Hin).
      case_decide.
      * subst p. eexists. split; [done|]. simpl. apply elem_of_app. left.
        congruence.
      * by exists pv'.
  - intros [= <-]. split; [|split]; [done|done|].
    intros ch' chv' p. simpl. rewrite (deref_store _ _ _ _ _ E). case_decide.
    + by intros [= <-].
    + apply H3.
Qed.

Lemma links_ok_new_producer ch w p w' :
  links_ok w → Producer_new ch w = Some (p, w') → links_ok w'.
Proof.
  intros Hok. unfold Producer_new, alloc.
  destruct (Channel_set_producer _ _ _) as [w1|] eqn:E; [|done].
  intros [= <- <-]. eapply links_ok_set_producer; [|exact E].
  by apply links_ok_alloc_producer.
Qed.

Lemma links_ok_new_consumer ch (junk : State) w c w' :
  links_ok w → Consumer_new ch junk w = Some (c, w') → links_ok w'.
Proof.
  intros (H1 & H2 & H3). unfold Consumer_new, alloc,
    Channel_internal_add_consumer. simpl.
  destruct (deref (channels w) ch) as [chv|] eqn:E; [|done].
  intros [= <- <-]. split; [|split].
  - intros ch' chv' c. simpl. rewrite (deref_store _ _ _ _ _ E).
    rewrite deref_alloc. case_decide.
    + subst ch'. intros [= <-]. simpl. rewrite elem_of_app, list_elem_of_singleton.
      intros [Hin| ->].
      * destruct (H1 _ _ _ E Hin) as (cv & Ecv & Hch).
        exists cv. split; [|done]. case_decide; [|done].
        subst c. by rewrite deref_fresh in Ecv.
      * rewrite decide_True by done. by eexists.
    + intros Echv Hin. destruct (H1 _ _ _ Echv Hin) as (cv & Ecv & Hch).
      exists cv. split; [|done]. case_decide; [|done].
      subst c. by rewrite deref_fresh in Ecv.
  - intros c cv ch'. simpl. rewrite (deref_store _ _ _ _ _ E).
    rewrite deref_alloc. case_decide.
    + subst c. intros [= <-] [= <-]. simpl. rewrite decide_True by done.
      eexists. split; [done|]. simpl. apply elem_of_app. right. by left.
    + intros Ecv Hch. destruct (H2 _ _ _ Ecv Hch) as (chv' & Echv & Hin).
      case_decide.
      * subst ch'. eexists. split; [done|]. simpl. apply elem_of_app. left.
        congruence.
      * by exists chv'.
  - intros ch' chv' p. simpl. rewrite (deref_store _ _ _ _ _ E). case_decide.
    + subst ch'. intros [= <-]. simpl. by apply H3.
    + apply H3.
Qed.

Lemma links_ok_delivered s l w w' :
  links_ok w → delivered s l w w' → links_ok w'.
Proof.
  intros (H1 & H2 & H3) (Hp & Hch & Hd & _). split; [|split].
  - intros ch chv c. rewrite Hch. intros Echv Hin.
    destruct (H1 _ _ _ Echv Hin) as (cv & Ecv & Hcv).
    rewrite Hd, Ecv. simpl. eexists. split; [done|]. by case_decide.
  - intros c cv' ch. rewrite Hd, Hch.
    destruct (deref (consumers w) c) as [cv|] eqn:Ecv; [|done].
    simpl. intros [= <-] Hcv. apply (H2 c cv); [done|]. by case_decide.
  - intros ch chv p. rewrite Hch, Hp. apply H3.
Qed.

Lemma links_ok_destroy_channel ch w w' :
  links_ok w → Channel_destroy ch w = Some w' → links_ok w'.
Proof.
  intros (H1 & H2 & H3). unfold Channel_destroy.
  destruct (deref (channels w) ch) as [chv|] eqn:E; [|done].
  destruct (for_each _ _ _) as [w1|] eqn:E1; [|done].
  apply sever_loop_inv in E1 as (_ & Hp1 & Hch1 & _ & Hd1).
  destruct (match producer_ chv with Some pa => _ | None => _ end)
    as [w2|] eqn:E2; [|done].
  intros [= <-].
  assert (channels w2 = channels w ∧ consumers w2 = consumers w1) as [Hch2 Hco2].
  { destruct (producer_ chv) as [pa|]; [|injection E2 as <-; done].
    unfold Producer_internal_remove_channel in E2.
    destruct (deref (producers w1) pa); [|done]. injection E2 as <-. done. }
  split; [|split].
  - intros ch' chv' c. simpl. rewrite deref_free, Hch2, Hco2, Hd1.
    case_decide as Hne; [done|]. intros Echv Hin.
    destruct (H1 _ _ _ Echv Hin) as (cv & Ecv & Hcv). rewrite Ecv. simpl.
    exists cv. split; [|done]. rewrite decide_False; [done|].
    intros Hin'. destruct (H1 _ _ _ E Hin') as (cv' & Ecv' & Hcv'). congruence.
  - intros c cv' ch'. simpl. rewrite deref_free, Hch2, Hco2, Hd1.
    destruct (deref (consumers w) c) as [cv|] eqn:Ecv; [|done]. simpl.
    case_decide as Hin; intros [= <-]; [done|]. intros Hcv.
    destruct (H2 _ _ _ Ecv Hcv) as (chv' & Echv & Hin').
    exists chv'. split; [|done]. rewrite decide_False; [done|].
    intros ->. congruence.
  - intros ch' chv' p. simpl. rewrite deref_free, Hch2.
    case_decide as Hne; [done|]. intros Echv Hp.
    destruct (H3 _ _ _ Echv Hp) as (pv & Epv & Hin).
    destruct (producer_ chv) as [pa|].
    + unfold Producer_internal_remove_channel in E2. rewrite Hp1 in E2.
      destruct (deref (producers w) pa) as [pva|] eqn:Epa; [|done].
      injection E2 as <-. simpl. rewrite (deref_store _ _ _ _ _ Epa).
      case_decide.
      * subst p. eexists. split; [done|]. simpl. apply elem_of_erase.
        split; [congruence|done].
      * by exists pv.
    + injection E2 as <-. rewrite Hp1. by exists pv.
Qed.

Lemma links_ok_destroy_producer p w w' :
  links_ok w → Producer_destroy p w = Some w' → links_ok w'.
Proof.
  intros (H1 & H2 & H3). unfold Producer_destroy.
  destruct (deref (producers w) p) as [pv|] eqn:E; [|done].
  destruct (for_each _ _ _) as [w1|] eqn:E1; [|done].
  apply unbind_loop_inv in E1 as (_ & Hp1 & Hco1 & _ & Hd1).
  intros [= <-]. split; [|split].
  - intros ch chv' c. simpl. rewrite Hd1, Hco1.
    destruct (deref (channels w) ch) as [chv|] eqn:Echv; [|done]. simpl.
    intros [= <-] Hin. apply (H1 ch chv); [done|]. by case_decide.
  - intros c cv ch. simpl. rewrite Hd1, Hco1. intros Ecv Hcv.
    destruct (H2 _ _ _ Ecv Hcv) as (chv & Echv & Hin). rewrite Echv. simpl.
    eexists. split; [done|]. by case_decide.
  - intros ch chv' p'. simpl. rewrite Hd1, Hp1, deref_free.
    destruct (deref (channels w) ch) as [chv|] eqn:Echv; [|done]. simpl.
    case_decide as Hin; intros [= <-]; [done|]. intros Hp.
    destruct (H3 _ _ _ Echv Hp) as (pv' & Epv & Hin').
    exists pv'. split; [|done]. rewrite decide_False; [done|].
    intros ->. congruence.
Qed.

Lemma links_ok_destroy_consumer c w w' :
  links_ok w → Consumer_destroy c w = Some w' → links_ok w'.
Proof.
  intros (H1 & H2 & H3). unfold Consumer_destroy.
  destruct (deref (consumers w) c) as [cv|] eqn:E; [|done].
  destruct (channel_ cv) as [cha|] eqn:Ecv.
  - destruct (deref (channels w) cha) as [chv|] eqn:Echa; [|done].
    intros [= <-]. split; [|split].
    + intros ch' chv' c'. simpl. rewrite (deref_store _ _ _ _ _ Echa), deref_free.
      case_decide.
      * subst ch'. intros [= <-]. simpl. rewrite elem_of_erase. intros [Hin Hne].
        rewrite decide_False by done. by apply H1 with chv.
      * intros Echv Hin. destruct (H1 _ _ _ Echv Hin) as (cv' & Ecv' & Hcv').
        exists cv'. split; [|done]. rewrite decide_False; [done|].
        intros ->. congruence.
    + intros c' cv' ch'. simpl. rewrite (deref_store _ _ _ _ _ Echa), deref_free.
      case_decide as Hne; [done|]. intros Ecv' Hcv'.
      destruct (H2 _ _ _ Ecv' Hcv') as (chv' & Echv' & Hin).
      case_decide.
      * subst ch'. eexists. split; [done|]. simpl. apply elem_of_erase.
        split; [congruence|done].
      * by exists chv'.
    + intros ch' chv' p. simpl. rewrite (deref_store _ _ _ _ _ Echa).
      case_decide.
      * subst ch'. intros [= <-]. simpl. by apply H3.
      * apply H3.
  - intros [= <-]. split; [|split].
    + intros ch' chv' c'. simpl. rewrite deref_free. intros Echv Hin.
      destruct (H1 _ _ _ Echv Hin) as (cv' & Ecv' & Hcv').
      exists cv'. split; [|done]. rewrite decide_False; [done|].
      intros ->. congruence.
    + intros c' cv' ch'. simpl. rewrite deref_free.
      case_decide; [done|]. apply H2.
    + intros ch' chv' p. simpl. apply H3.
Qed.

Lemma links_ok_step o w w' : links_ok w → step o w = Some w' → links_ok w'.
Proof.
  intros Hok. destruct o as [|ch|ch junk|ch po|p s|ch|p|c]; simpl.
  - intros [= <-]. by apply links_ok_new_channel.
  - destruct (Producer_new ch w) as [[p w1]|] eqn:E; [|done].
    intros [= <-]. by eapply links_ok_new_producer.
  - destruct (Consumer_new ch junk w) as [[c w1]|] eqn:E; [|done].
    intros [= <-]. by eapply links_ok_new_consumer.
  - by apply links_ok_set_producer.
  - intros E. apply Producer_produce_inv in E as (pv & _ & _ & _ & Hd).
    by eapply links_ok_delivered.
  - by apply links_ok_destroy_channel.
  - by apply links_ok_destroy_producer.
  - by apply links_ok_destroy_consumer.
Qed.

Lemma run_cons o ops w :
  run (o :: ops) w = match step o w with Some w1 => run ops w1 | None => None end.
Proof. done. Qed.

Lemma links_ok_run ops w w' : links_ok w → run ops w = Some w' → links_ok w'.
Proof.
  revert w. induction ops as [|o ops IH]; intros w Hok.
  - by intros [= <-].
  - rewrite run_cons. destruct (step o w) as [w1|] eqn:E; [|done].
    apply IH. by eapply links_ok_step.
Qed.

(** Every state a program can be in has consistent channel-consumer links,
    and every channel's [producer_] is alive and lists the channel. *)
Lemma reachable_links_ok w : reachable w → links_ok w.
Proof. intros [ops Hrun]. eapply links_ok_run; [apply links_ok_empty|done]. Qed.

Lemma reachable_run ops w w' : reachable w → run ops w = Some w' → reachable w'.
Proof.
  intros [ops0 Hrun0] Hrun. exists (ops0 ++ ops). unfold run in *.
  by rewrite for_each_app, Hrun0.
Qed.

End Links.

(** * The claims *)

Section Claims.
Context {State : Type} `{!AState State}.
Implicit Types (s : State) (w : @World State) (c ch p : addr) (l chs : list addr).

Lemma elem_of_receivers w chs ch chv c :
  ch ∈ chs → deref (channels w) ch = Some chv → c ∈ consumers_ chv →
  c ∈ receivers w chs.
Proof.
  intros Hch E Hc. unfold receivers. apply list_elem_of_bind. exists ch.
  by rewrite (consumers_of_live _ _ _ E).
Qed.

Lemma receivers_linked w chs c :
  consumers_linked w → c ∈ receivers w chs →
  ∃ ch cv, deref (consumers w) c = Some cv ∧ channel_ cv = Some ch.
Proof.
  intros H1. unfold receivers. rewrite list_elem_of_bind.
  intros (ch & Hc & _). unfold consumers_of, Channel_consumers in Hc.
  destruct (deref (channels w) ch) as [chv|] eqn:E; simpl in Hc.
  - destruct (H1 _ _ _ E Hc) as (cv & Ecv & Hcv). by exists ch, cv.
  - by apply elem_of_nil in Hc.
Qed.

Lemma receivers_live w chs :
  consumers_linked w → Forall (live (consumers w)) (receivers w chs).
Proof.
  intros H1. apply Forall_forall. intros c Hc.
  destruct (receivers_linked _ _ _ H1 Hc) as (ch & cv & Ecv & _). by exists cv.
Qed.

Lemma delivered_state s l w w' c :
  delivered s l w w' → c ∈ l → live (consumers w) c →
  Consumer_state c w' = Some s.
Proof.
  intros (_ & _ & Hd & _) Hin [cv Ecv]. unfold Consumer_state.
  rewrite Hd, Ecv. simpl. by rewrite decide_True.
Qed.

Lemma delivered_other s l w w' c :
  delivered s l w w' → c ∉ l → deref (consumers w') c = deref (consumers w) c.
Proof.
  intros (_ & _ & Hd & _) Hin. rewrite Hd.
  destruct (deref (consumers w) c); simpl; [|done]. by rewrite decide_False.
Qed.

(** With consistent links, [produce] on a live producer whose channels are
    alive is defined and delivers to [receivers]. *)
Lemma produce_reaches p pv s w :
  links_ok w → deref (producers w) p = Some pv →
  Forall (live (channels w)) (channels_ pv) →
  ∃ w', Producer_produce p s w = Some w' ∧
        delivered s (receivers w (channels_ pv)) w w'.
Proof.
  intros (H1 & _) E Hch. apply Producer_produce_Some; [done..|].
  by apply receivers_live.
Qed.

(** Three of the four kinds of pointer never dangle in a reachable state: a
    channel's consumers, a channel's producer and a consumer's channel. *)
Lemma reachable_no_dangling_but_channels w :
  reachable w →
  (∀ ch chv c, deref (channels w) ch = Some chv → c ∈ consumers_ chv →
     live (consumers w) c) ∧
  (∀ ch chv p, deref (channels w) ch = Some chv → producer_ chv = Some p →
     live (producers w) p) ∧
  (∀ c cv ch, deref (consumers w) c = Some cv → channel_ cv = Some ch →
     live (channels w) ch).
Proof.
  intros Hr. destruct (reachable_links_ok _ Hr) as (H1 & H2 & H3).
  split; [|split].
  - intros ch chv c E Hin. destruct (H1 _ _ _ E Hin) as (cv & Ecv & _).
    by exists cv.
  - intros ch chv p E Hp. destruct (H3 _ _ _ E Hp) as (pv & Epv & _).
    by exists pv.
  - intros c cv ch E Hch. destruct (H2 _ _ _ E Hch) as (chv & Echv & _).
    by exists chv.
Qed.

(** X17: on a live producer [p] whose listed channels are all alive,
    [p.produce(s)] is defined; afterwards [state()] of every consumer of every channel of [p]
    is [s]; and [on_new_state(s)] ran on exactly the consumers of the
    channels of [p], channel after channel in the order of [channels_], and
    within a channel in the order of [consumers_]. *)
Theorem produce_fan_out p pv s w :
  reachable w →
  deref (producers w) p = Some pv →
  Forall (live (channels w)) (channels_ pv) →
  ∃ w', Producer_produce p s w = Some w' ∧
        (∀ ch c, ch ∈ channels_ pv → c ∈ consumers_of w ch →
           Consumer_state c w' = Some s) ∧
        ∃ evs, hooks w' = hooks w ++ evs ∧
               hc_consumer <$> evs = channels_ pv ≫= consumers_of w ∧
               Forall (λ e, hc_arg e = s) evs.
Proof.
  intros Hr E Hch. pose proof (reachable_links_ok _ Hr) as Hok.
  destruct (produce_reaches p pv s w Hok E Hch) as (w' & Hrun & Hd).
  exists w'. split; [done|]. split.
  - intros ch c Hin Hc. eapply delivered_state; [exact Hd| |].
    + unfold receivers. apply list_elem_of_bind. by exists ch.
    + destruct Hok as (H1 & _).
      eapply Forall_forall; [by apply (receivers_live w (channels_ pv))|].
      unfold receivers. apply list_elem_of_bind. by exists ch.
  - by destruct Hd as (_ & _ & _ & Hev).
Qed.

(** C3: a delivery of [s] to a live consumer first runs [on_new_state(s)],
    during which [state()] is the value cached before the delivery and at
    whose return the cache is still that value; only then is the cache
    overwritten, so that [state()] is [s] once the delivery is complete. *)
Theorem hook_sees_previous_state s c w cv :
  deref (consumers w) c = Some cv →
  ∃ w1 w', Consumer_on_new_state c s w = Some w1 ∧
           hooks w1 = hooks w ++ [mkHookCall c (state_ cv) s] ∧
           Consumer_state c w1 = Some (state_ cv) ∧
           Consumer_internal_produce s c w = Some w' ∧
           hooks w' = hooks w1 ∧
           Consumer_state c w' = Some s.
Proof.
  intros E.
  exists (with_hooks w (hooks w ++ [mkHookCall c (state_ cv) s])).
  eexists. split; [|split; [|split; [|split; [|split]]]].
  - unfold Consumer_on_new_state, Consumer_state. by rewrite E.
  - done.
  - unfold Consumer_state. simpl. by rewrite E.
  - by apply Consumer_internal_produce_Some.
  - done.
  - unfold Consumer_state. simpl. rewrite (deref_store _ _ _ _ _ E).
    by rewrite decide_True.
Qed.


(** With consistent links, the destructor of a live channel is defined; it
    clears [channel_] of the consumers on the channel and touches no other
    consumer, and the channel is gone afterwards. *)
Lemma Channel_destroy_Some ch chv w :
  links_ok w → deref (channels w) ch = Some chv →
  ∃ w', Channel_destroy ch w = Some w' ∧
        hooks w' = hooks w ∧
        (∀ c, deref (consumers w') c =
              (λ cv, if decide (c ∈ consumers_ chv)
                     then mkConsumer None (state_ cv) else cv)
                <$> deref (consumers w) c) ∧
        (∀ a, deref (channels w') a =
              if decide (a = ch) then None else deref (channels w) a).
Proof.
  intros (H1 & H2 & H3) E. unfold Channel_destroy. rewrite E.
  destruct (sever_loop (consumers_ chv) w) as (w1 & -> & Hp1 & Hch1 & Hh1 & Hd1).
  { apply Forall_forall. intros c Hin.
    destruct (H1 _ _ _ E Hin) as (cv & Ecv & _). by exists cv. }
  destruct (producer_ chv) as [pa|] eqn:Epa.
  - destruct (H3 _ _ _ E Epa) as (pv & Epv & _).
    unfold Producer_internal_remove_channel. rewrite Hp1, Epv.
    eexists. split; [reflexivity|]. simpl. split; [done|]. split; [done|].
    intros a. by rewrite deref_free, Hch1.
  - eexists. split; [reflexivity|]. simpl. split; [done|]. split; [done|].
    intros a. by rewrite deref_free, Hch1.
Qed.

(** C5: when consumer [c] is bound to channel [ch], the destructor of [ch]
    is defined; afterwards [c] is still alive, [c.channel()] is [nullptr],
    [c.state()] is the value cached before, and [c] can be destroyed without
    reaching for the destroyed channel. *)
Theorem channel_destruction_severs ch c cv w :
  reachable w →
  deref (consumers w) c = Some cv →
  channel_ cv = Some ch →
  ∃ w', Channel_destroy ch w = Some w' ∧
        ¬ live (channels w') ch ∧
        Consumer_channel c w' = Some None ∧
        Consumer_state c w' = Some (state_ cv) ∧
        is_Some (Consumer_destroy c w').
Proof.
  intros Hr E Hch. pose proof (reachable_links_ok _ Hr) as Hok.
  destruct Hok as (H1 & H2 & H3).
  destruct (H2 _ _ _ E Hch) as (chv & Echv & Hin).
  destruct (Channel_destroy_Some ch chv w (conj H1 (conj H2 H3)) Echv)
    as (w' & Hrun & _ & Hco & Hcha).
  assert (deref (consumers w') c = Some (mkConsumer None (state_ cv))) as E'.
  { rewrite Hco, E. simpl. by rewrite decide_True. }
  exists w'. split; [done|]. split; [|split; [|split]].
  - unfold live. rewrite Hcha, decide_True by done. by intros [? ?].
  - unfold Consumer_channel. by rewrite E'.
  - unfold Consumer_state. by rewrite E'.
  - unfold Consumer_destroy. rewrite E'. simpl. by eexists.
Qed.

Lemma reachable_step o w w' : reachable w → step o w = Some w' → reachable w'.
Proof.
  intros Hr E. apply (reachable_run [o] w w' Hr). rewrite run_cons, E. done.
Qed.

(** The destructor of a live producer whose channels are alive is defined;
    it clears [producer_] of the channels on its list and leaves every other
    channel and every consumer as they were. *)
Lemma Producer_destroy_Some p pv w :
  deref (producers w) p = Some pv →
  Forall (live (channels w)) (channels_ pv) →
  ∃ w', Producer_destroy p w = Some w' ∧
        consumers w' = consumers w ∧
        hooks w' = hooks w ∧
        (∀ ch, deref (channels w') ch =
               (λ chv, if decide (ch ∈ channels_ pv)
                       then mkChannel (consumers_ chv) None else chv)
                 <$> deref (channels w) ch) ∧
        (∀ a, deref (producers w') a =
              if decide (a = p) then None else deref (producers w) a).
Proof.
  intros E Hl. unfold Producer_destroy. rewrite E.
  destruct (unbind_loop (channels_ pv) w Hl) as (w1 & -> & Hp1 & Hco1 & Hh1 & Hd1).
  eexists. split; [reflexivity|]. simpl. split; [done|]. split; [done|].
  split; [done|]. intros a. by rewrite deref_free, Hp1.
Qed.

(** X18: when [p] is the producer of channel [ch] and the channels on the
    list of [p] are all alive, the destructor of [p] is defined; afterwards
    [ch.producer()] is [nullptr] and [ch.consumers()] is as before; a new
    producer can be constructed on [ch], becomes its producer, and what it
    produces reaches every consumer of [ch]. *)
Theorem producer_destruction_unbinds ch chv p pv w :
  reachable w →
  deref (channels w) ch = Some chv →
  producer_ chv = Some p →
  deref (producers w) p = Some pv →
  Forall (live (channels w)) (channels_ pv) →
  ∃ w', Producer_destroy p w = Some w' ∧
        Channel_producer ch w' = Some None ∧
        Channel_consumers ch w' = Some (consumers_ chv) ∧
        ∃ p2 w2, Producer_new ch w' = Some (p2, w2) ∧
                 Channel_producer ch w2 = Some (Some p2) ∧
                 Channel_consumers ch w2 = Some (consumers_ chv) ∧
                 ∀ s, ∃ w3, Producer_produce p2 s w2 = Some w3 ∧
                            ∀ c, c ∈ consumers_ chv →
                                 Consumer_state c w3 = Some s.
Proof.
  intros Hr E Hp Epv Hl.
  destruct (reachable_links_ok _ Hr) as (_ & _ & H3).
  destruct (H3 _ _ _ E Hp) as (pv' & Epv' & Hin).
  assert (pv' = pv) as -> by congruence.
  destruct (Producer_destroy_Some p pv w Epv Hl)
    as (w' & Hrun & Hco & _ & Hch & Hpr).
  assert (deref (channels w') ch = Some (mkChannel (consumers_ chv) None)) as E'.
  { rewrite Hch, E. simpl. by rewrite decide_True. }
  assert (reachable w') as Hr' by (by apply (reachable_step (DestroyProducer p) w)).
  exists w'. split; [done|].
  split; [unfold Channel_producer; by rewrite E'|].
  split; [unfold Channel_consumers; by rewrite E'|].
  destruct (Producer_new ch w') as [[p2 w2]|] eqn:Enew; cycle 1.
  { exfalso. revert Enew. unfold Producer_new, alloc, Channel_set_producer.
    simpl. rewrite E'. simpl. by rewrite deref_alloc, decide_True. }
  assert (reachable w2) as Hr2.
  { apply (reachable_step (NewProducer ch) w' w2 Hr'). simpl. by rewrite Enew. }
  revert Enew. unfold Producer_new, alloc, Channel_set_producer. simpl.
  rewrite E'. simpl. rewrite deref_alloc, decide_True by done.
  intros [= <- Hw2].
  assert (deref (channels w2) ch = Some (mkChannel (consumers_ chv)
            (Some (length (producers w'))))) as E2.
  { subst w2. simpl. rewrite (deref_store _ _ _ _ _ E'). by rewrite decide_True. }
  assert (deref (producers w2) (length (producers w')) = Some (mkProducer [ch]))
    as Ep2.
  { subst w2. simpl. erewrite deref_store.
    - by rewrite decide_True.
    - by rewrite deref_alloc, decide_True. }
  exists (length (producers w')), w2. split; [done|].
  split; [unfold Channel_producer; by rewrite E2|].
  split; [unfold Channel_consumers; by rewrite E2|].
  intros s. pose proof (reachable_links_ok _ Hr2) as Hok2.
  destruct (produce_reaches _ _ s w2 Hok2 Ep2) as (w3 & Hrun3 & Hd).
  { constructor; [|constructor]. by eexists. }
  exists w3. split; [done|]. intros c Hc.
  destruct Hok2 as (H1 & _). destruct (H1 _ _ _ E2 Hc) as (cv & Ecv & _).
  eapply delivered_state; [exact Hd| |by exists cv].
  eapply elem_of_receivers; [by left|exact E2|done].
Qed.

(** X19: with consumers [c1] and [c2] registered on a channel [ch] whose
    producer lists only live channels, the destructor of [c1] is defined and
    erases [c1] from [ch.consumers()]; [c2] stays registered, with its
    [channel()] and [state()] untouched, and what the producer of [ch]
    produces next still reaches [c2]. *)
Theorem consumer_destruction_spares_siblings ch chv c1 c2 p pv w :
  reachable w →
  deref (channels w) ch = Some chv →
  c1 ∈ consumers_ chv → c2 ∈ consumers_ chv → c1 ≠ c2 →
  producer_ chv = Some p →
  deref (producers w) p = Some pv →
  Forall (live (channels w)) (channels_ pv) →
  ∃ w', Consumer_destroy c1 w = Some w' ∧
        Channel_consumers ch w' = Some (erase (consumers_ chv) c1) ∧
        (c1 ∉ erase (consumers_ chv) c1) ∧
        (c2 ∈ erase (consumers_ chv) c1) ∧
        Consumer_channel c2 w' = Some (Some ch) ∧
        Consumer_state c2 w' = Consumer_state c2 w ∧
        ∀ s, ∃ w'', Producer_produce p s w' = Some w'' ∧
                    Consumer_state c2 w'' = Some s.
Proof.
  intros Hr E Hc1 Hc2 Hne Hp Epv Hl.
  destruct (reachable_links_ok _ Hr) as (H1 & _ & H3).
  destruct (H1 _ _ _ E Hc1) as (cv1 & Ecv1 & Hch1).
  destruct (H1 _ _ _ E Hc2) as (cv2 & Ecv2 & Hch2).
  destruct (H3 _ _ _ E Hp) as (pv' & Epv' & Hin).
  assert (pv' = pv) as -> by congruence.
  destruct (Consumer_destroy c1 w) as [w'|] eqn:Erun; cycle 1.
  { exfalso. revert Erun. unfold Consumer_destroy. by rewrite Ecv1, Hch1, E. }
  assert (reachable w') as Hr'
    by (by apply (reachable_step (DestroyConsumer c1) w)).
  revert Erun. unfold Consumer_destroy. rewrite Ecv1, Hch1, E.
  intros [= Hw'].
  assert (deref (channels w') ch =
          Some (mkChannel (erase (consumers_ chv) c1) (producer_ chv))) as E'.
  { subst w'. simpl. rewrite (deref_store _ _ _ _ _ E). by rewrite decide_True. }
  assert (deref (consumers w') c2 = Some cv2) as Ecv2'.
  { subst w'. simpl. rewrite deref_free. by rewrite decide_False. }
  assert (c2 ∈ erase (consumers_ chv) c1) as Hc2'.
  { apply elem_of_erase. by split. }
  exists w'. split; [done|].
  split; [unfold Channel_consumers; by rewrite E'|].
  split; [rewrite elem_of_erase; tauto|]. split; [done|].
  split; [unfold Consumer_channel; rewrite Ecv2'; simpl; by rewrite Hch2|].
  split; [unfold Consumer_state; by rewrite Ecv2', Ecv2|].
  intros s. pose proof (reachable_links_ok _ Hr') as Hok'.
  destruct (produce_reaches p pv s w' Hok') as (w'' & Hrun'' & Hd).
  { by subst w'. }
  { subst w'. simpl. eapply Forall_impl; [exact Hl|]. intros a. unfold live.
    rewrite (deref_store _ _ _ _ _ E). by case_decide. }
  exists w''. split; [done|].
  eapply delivered_state; [exact Hd| |by exists cv2].
  eapply elem_of_receivers; [exact Hin|exact E'|done].
Qed.

(** C8: when [p1] is the producer of channel [ch] and [p2] is another live
    producer, [ch.set_producer(p2)] is defined; afterwards [ch.producer()]
    is [p2], [p2.channels()] has [ch] appended, and [p1.channels()] is as
    before and still has [ch] on it. *)
Theorem set_producer_rebinds ch chv p1 p2 pv2 w :
  reachable w →
  deref (channels w) ch = Some chv →
  producer_ chv = Some p1 →
  p2 ≠ p1 →
  deref (producers w) p2 = Some pv2 →
  ∃ w', Channel_set_producer ch (Some p2) w = Some w' ∧
        Channel_producer ch w' = Some (Some p2) ∧
        Producer_channels p2 w' = Some (channels_ pv2 ++ [ch]) ∧
        Producer_channels p1 w' = Producer_channels p1 w ∧
        ∃ l1, Producer_channels p1 w' = Some l1 ∧ ch ∈ l1.
Proof.
  intros Hr E Hp Hne Epv2.
  destruct (reachable_links_ok _ Hr) as (_ & _ & H3).
  destruct (H3 _ _ _ E Hp) as (pv1 & Epv1 & Hin).
  unfold Channel_set_producer. rewrite E. simpl. rewrite Epv2.
  eexists. split; [reflexivity|].
  unfold Channel_producer, Producer_channels. simpl.
  rewrite (deref_store _ _ _ _ _ E), decide_True by done.
  rewrite !(deref_store _ _ _ _ _ Epv2), decide_True by done.
  rewrite decide_False by done.
  split; [done|]. split; [done|]. split; [done|].
  exists (channels_ pv1). by rewrite Epv1.
Qed.

(** X21: when [p] is the producer of channel [ch] and the channels on the
    list of [p] are all alive, [ch.set_producer(nullptr)] is defined; afterwards
    [ch.producer()] is [nullptr] while [p.channels()] is as before, with [ch]
    on it, and [p.produce(s)] still reaches every consumer of [ch]. *)
Theorem unbound_channel_still_fed ch chv p pv w :
  reachable w →
  deref (channels w) ch = Some chv →
  producer_ chv = Some p →
  deref (producers w) p = Some pv →
  Forall (live (channels w)) (channels_ pv) →
  ∃ w', Channel_set_producer ch None w = Some w' ∧
        Channel_producer ch w' = Some None ∧
        Channel_consumers ch w' = Some (consumers_ chv) ∧
        Producer_channels p w' = Some (channels_ pv) ∧
        ch ∈ channels_ pv ∧
        ∀ s, ∃ w'', Producer_produce p s w' = Some w'' ∧
                    ∀ c, c ∈ consumers_ chv → Consumer_state c w'' = Some s.
Proof.
  intros Hr E Hp Epv Hl.
  destruct (reachable_links_ok _ Hr) as (_ & _ & H3).
  destruct (H3 _ _ _ E Hp) as (pv' & Epv' & Hin).
  assert (pv' = pv) as -> by congruence.
  destruct (Channel_set_producer ch None w) as [w'|] eqn:Erun; cycle 1.
  { exfalso. revert Erun. unfold Channel_set_producer. by rewrite E. }
  assert (reachable w') as Hr'
    by (by apply (reachable_step (SetProducer ch None) w)).
  revert Erun. unfold Channel_set_producer. rewrite E. intros [= Hw'].
  assert (deref (channels w') ch = Some (mkChannel (consumers_ chv) None)) as E'.
  { subst w'. simpl. rewrite (deref_store _ _ _ _ _ E). by rewrite decide_True. }
  exists w'. split; [done|].
  split; [unfold Channel_producer; by rewrite E'|].
  split; [unfold Channel_consumers; by rewrite E'|].
  split; [unfold Producer_channels; subst w'; simpl; by rewrite Epv|].
  split; [done|].
  intros s. pose proof (reachable_links_ok _ Hr') as Hok'.
  destruct (produce_reaches p pv s w' Hok') as (w'' & Hrun'' & Hd).
  { by subst w'. }
  { subst w'. simpl. eapply Forall_impl; [exact Hl|]. intros a. unfold live.
    rewrite (deref_store _ _ _ _ _ E). by case_decide. }
  exists w''. split; [done|]. intros c Hc.
  destruct Hok' as (H1' & _). destruct (H1' _ _ _ E' Hc) as (cv & Ecv & _).
  eapply delivered_state; [exact Hd| |by exists cv].
  eapply elem_of_receivers; [exact Hin|exact E'|done].
Qed.

(** *** Severed consumers *)

Lemma Channel_set_producer_frame ch po w w' :
  Channel_set_producer ch po w = Some w' →
  consumers w' = consumers w ∧ hooks w' = hooks w.
Proof.
  unfold Channel_set_producer.
  destruct (deref (channels w) ch); [|done]. destruct po as [pa|].
  - simpl. destruct (deref (producers w) pa); [|done]. by intros [= <-].
  - by intros [= <-].
Qed.

(** A destroyed consumer stays destroyed: its cell is never handed out
    again. *)
Lemma step_keeps_destroyed o w w' c :
  step o w = Some w' → destroyed (consumers w) c → destroyed (consumers w') c.
Proof.
  assert (∀ s a (u v : @World State), Consumer_internal_produce s a u = Some v →
            destroyed (consumers u) c → destroyed (consumers v) c) as Hdel.
  { intros s a u v E. destruct (Consumer_internal_produce_live _ _ _ _ E)
      as [av Ea]. rewrite (Consumer_internal_produce_Some _ _ _ _ Ea) in E.
    injection E as <-. simpl. by apply destroyed_store with av. }
  pose proof (λ ch po u v E, proj1 (Channel_set_producer_frame ch po u v E))
    as Hset.
  destruct o as [|ch|ch junk|ch po|p s|ch|p|a]; simpl.
  - by intros [= <-].
  - unfold Producer_new, alloc.
    destruct (Channel_set_producer _ _ _) as [w1|] eqn:E; [|done].
    intros [= <-]. by rewrite (Hset _ _ _ _ E).
  - unfold Consumer_new, alloc, Channel_internal_add_consumer. simpl.
    destruct (deref (channels w) ch); [|done]. intros [= <-]. simpl.
    apply destroyed_alloc.
  - intros E. by rewrite (Hset _ _ _ _ E).
  - unfold Producer_produce. destruct (deref (producers w) p) as [pv|]; [|done].
    apply (for_each_rel
             (λ u v, destroyed (consumers u) c → destroyed (consumers v) c));
      [tauto|tauto|].
    intros ch u v _. unfold Channel_internal_produce.
    destruct (deref (channels u) ch) as [chv|]; [|done].
    apply (for_each_rel
             (λ u v, destroyed (consumers u) c → destroyed (consumers v) c));
      [tauto|tauto|].
    intros a u' v' _. apply Hdel.
  - unfold Channel_destroy. destruct (deref (channels w) ch) as [chv|]; [|done].
    destruct (for_each _ _ _) as [w1|] eqn:E1; [|done].
    destruct (match producer_ chv with Some pa => _ | None => _ end)
      as [w2|] eqn:E2; [|done].
    intros [= <-] Hc. simpl.
    assert (destroyed (consumers w1) c) as Hc1.
    { revert E1 Hc. apply (for_each_rel
        (λ u v, destroyed (consumers u) c → destroyed (consumers v) c));
        [tauto|tauto|].
      intros a u v _. unfold Consumer_clear_channel.
      destruct (deref (consumers u) a) as [av|] eqn:Ea; [|done].
      intros [= <-]. simpl. by apply destroyed_store with av. }
    destruct (producer_ chv) as [pa|]; [|by injection E2 as <-].
    unfold Producer_internal_remove_channel in E2.
    destruct (deref (producers w1) pa); [|done]. by injection E2 as <-.
  - unfold Producer_destroy. destruct (deref (producers w) p) as [pv|]; [|done].
    destruct (for_each _ _ _) as [w1|] eqn:E1; [|done].
    apply unbind_loop_inv in E1 as (_ & _ & Hco & _).
    intros [= <-]. simpl. by rewrite Hco.
  - unfold Consumer_destroy. destruct (deref (consumers w) a) as [av|]; [|done].
    destruct (channel_ av) as [cha|].
    + destruct (deref (channels w) cha); [|done]. intros [= <-]. simpl.
      apply destroyed_free.
    + intros [= <-]. simpl. apply destroyed_free.
Qed.

(** A live consumer without a channel is left alone by every call except its
    own destructor. *)
Lemma step_keeps_severed o w w' c cv :
  links_ok w → deref (consumers w) c = Some cv → channel_ cv = None →
  step o w = Some w' →
  deref (consumers w') c = Some cv ∨ destroyed (consumers w') c.
Proof.
  intros Hok E Hch.
  pose proof (λ ch po u v E, proj1 (Channel_set_producer_frame ch po u v E))
    as Hset.
  destruct o as [|ch|ch junk|ch po|p s|ch|p|a]; simpl.
  - intros [= <-]. by left.
  - unfold Producer_new, alloc.
    destruct (Channel_set_producer _ _ _) as [w1|] eqn:E1; [|done].
    intros [= <-]. left. by rewrite (Hset _ _ _ _ E1).
  - unfold Consumer_new, alloc, Channel_internal_add_consumer. simpl.
    destruct (deref (channels w) ch); [|done]. intros [= <-]. simpl. left.
    rewrite deref_alloc, decide_False; [done|].
    apply deref_length in E. lia.
  - intros E1. left. by rewrite (Hset _ _ _ _ E1).
  - intros E1. apply Producer_produce_inv in E1 as (pv & _ & _ & _ & Hd).
    left. rewrite (delivered_other _ _ _ _ _ Hd); [done|].
    intros Hin. destruct Hok as (H1 & _).
    destruct (receivers_linked _ _ _ H1 Hin) as (ch & cv' & Ecv' & Hcv').
    congruence.
  - intros E1. left.
    assert (∃ chv, deref (channels w) ch = Some chv) as [chv Echv].
    { revert E1. unfold Channel_destroy.
      destruct (deref (channels w) ch); [by eexists|done]. }
    destruct (Channel_destroy_Some ch chv w Hok Echv) as (w'' & E2 & _ & Hco & _).
    assert (w'' = w') as -> by congruence.
    rewrite Hco, E. simpl. destruct cv as [cch cs]. simpl in *. subst cch.
    by case_decide.
  - unfold Producer_destroy. destruct (deref (producers w) p) as [pv|]; [|done].
    destruct (for_each _ _ _) as [w1|] eqn:E1; [|done].
    apply unbind_loop_inv in E1 as (_ & _ & Hco & _).
    intros [= <-]. simpl. left. by rewrite Hco.
  - unfold Consumer_destroy.
    destruct (deref (consumers w) a) as [av|] eqn:Ea; [|done].
    assert (∀ w1, consumers w1 = consumers w →
              deref (free (consumers w1) a) c = Some cv ∨
              destroyed (free (consumers w1) a) c) as Hfree.
    { intros w1 ->. destruct (decide (c = a)) as [->|Hne].
      - right. by apply free_destroys with cv.
      - left. by rewrite deref_free, decide_False. }
    destruct (channel_ av) as [cha|].
    + destruct (deref (channels w) cha); [|done]. intros [= <-]. simpl.
      by apply (Hfree w).
    + intros [= <-]. simpl. by apply (Hfree w).
Qed.

(** The hook does not run on a consumer that is destroyed or has no channel;
    calls other than [produce] do not run it at all. *)
Lemma step_hooks o w w' c :
  links_ok w →
  (∀ cv, deref (consumers w) c = Some cv → channel_ cv = None) →
  step o w = Some w' →
  ∃ evs, hooks w' = hooks w ++ evs ∧ Forall (λ e, hc_consumer e ≠ c) evs.
Proof.
  intros Hok Hc.
  pose proof (λ ch po u v E, proj2 (Channel_set_producer_frame ch po u v E))
    as Hset.
  assert (∀ u, hooks u = hooks w →
            ∃ evs, hooks u = hooks w ++ evs ∧
                   Forall (λ e, hc_consumer e ≠ c) evs) as Hsame.
  { intros u ->. exists []. by rewrite app_nil_r. }
  destruct o as [|ch|ch junk|ch po|p s|ch|p|a]; simpl.
  - intros [= <-]. by apply Hsame.
  - unfold Producer_new, alloc.
    destruct (Channel_set_producer _ _ _) as [w1|] eqn:E1; [|done].
    intros [= <-]. apply Hsame. by rewrite (Hset _ _ _ _ E1).
  - unfold Consumer_new, alloc, Channel_internal_add_consumer. simpl.
    destruct (deref (channels w) ch); [|done]. intros [= <-]. by apply Hsame.
  - intros E1. apply Hsame. by rewrite (Hset _ _ _ _ E1).
  - intros E1.
    apply Producer_produce_inv in E1 as (pv & _ & _ & _ & _ & _ & _ & Hev).
    destruct Hev as (evs & Hh & Hcs & _). exists evs. split; [done|].
    apply Forall_forall. intros e He Heq.
    assert (c ∈ receivers w (channels_ pv)) as Hin.
    { rewrite <- Hcs, <- Heq. by apply list_elem_of_fmap_2. }
    destruct Hok as (H1 & _).
    destruct (receivers_linked _ _ _ H1 Hin) as (ch & cv & Ecv & Hcv).
    specialize (Hc _ Ecv). congruence.
  - intros E1. apply Hsame.
    assert (∃ chv, deref (channels w) ch = Some chv) as [chv Echv].
    { revert E1. unfold Channel_destroy.
      destruct (deref (channels w) ch); [by eexists|done]. }
    destruct (Channel_destroy_Some ch chv w Hok Echv) as (w'' & E2 & Hh & _).
    congruence.
  - unfold Producer_destroy. destruct (deref (producers w) p) as [pv|]; [|done].
    destruct (for_each _ _ _) as [w1|] eqn:E1; [|done].
    apply unbind_loop_inv in E1 as (_ & _ & _ & Hh & _).
    intros [= <-]. by apply Hsame.
  - unfold Consumer_destroy. destruct (deref (consumers w) a) as [av|]; [|done].
    destruct (channel_ av) as [cha|].
    + destruct (deref (channels w) cha); [|done]. intros [= <-]. by apply Hsame.
    + intros [= <-]. by apply Hsame.
Qed.

Lemma run_keeps_severed ops w w' c cv :
  links_ok w →
  deref (consumers w) c = Some cv ∨ destroyed (consumers w) c →
  channel_ cv = None →
  run ops w = Some w' →
  (deref (consumers w') c = Some cv ∨ destroyed (consumers w') c) ∧
  ∃ evs, hooks w' = hooks w ++ evs ∧ Forall (λ e, hc_consumer e ≠ c) evs.
Proof.
  intros Hok HJ Hch. revert w Hok HJ.
  induction ops as [|o ops IH]; intros w Hok HJ.
  - intros [= <-]. split; [done|]. exists []. by rewrite app_nil_r.
  - rewrite run_cons. destruct (step o w) as [w1|] eqn:E; [|done]. intros Hrun.
    assert (deref (consumers w1) c = Some cv ∨ destroyed (consumers w1) c) as HJ1.
    { destruct HJ as [Hlive|Hdead].
      - by eapply step_keeps_severed.
      - right. by eapply step_keeps_destroyed. }
    destruct (step_hooks o w w1 c Hok) as (evs1 & Hh1 & Hev1); [|done|].
    { intros cv' Ecv'. destruct HJ as [Hlive|Hdead].
      - congruence.
      - apply destroyed_not_live in Hdead. congruence. }
    destruct (IH w1) as (HJ' & evs2 & Hh2 & Hev2);
      [by eapply links_ok_step|done|done|].
    split; [done|]. exists (evs1 ++ evs2).
    split; [by rewrite Hh2, Hh1, app_assoc|]. by apply Forall_app.
Qed.

(** X20: a live consumer whose channel is gone stays that way.  After any
    further calls that are defined, on any objects, and for as long as the
    consumer itself is not destroyed, [channel()] is [nullptr] and [state()] is what it was; and
    [on_new_state] has not run on it again. *)
Theorem severed_is_final c cv ops w w' :
  reachable w →
  deref (consumers w) c = Some cv →
  channel_ cv = None →
  run ops w = Some w' →
  (live (consumers w') c →
     Consumer_channel c w' = Some None ∧
     Consumer_state c w' = Some (state_ cv)) ∧
  ∃ evs, hooks w' = hooks w ++ evs ∧ Forall (λ e, hc_consumer e ≠ c) evs.
Proof.
  intros Hr E Hch Hrun. pose proof (reachable_links_ok _ Hr) as Hok.
  destruct (run_keeps_severed ops w w' c cv Hok (or_introl E) Hch Hrun)
    as (HJ & Hev).
  split; [|done]. intros [cv' Ecv']. unfold Consumer_channel, Consumer_state.
  destruct HJ as [Hlive|Hdead].
  - rewrite Hlive. simpl. by rewrite Hch.
  - apply destroyed_not_live in Hdead. congruence.
Qed.

End Claims.

Lemma produce_fan_out_witness :
  reachable two_channel_world ∧
  deref (producers two_channel_world) 0 = Some (mkProducer [0; 1]) ∧
  Forall (live (channels two_channel_world)) [0; 1] ∧
  ∃ w', Producer_produce 0 7 two_channel_world = Some w' ∧
        (∀ ch c, ch ∈ [0; 1] → c ∈ consumers_of two_channel_world ch →
           Consumer_state c w' = Some 7) ∧
        ∃ evs, hooks w' = hooks two_channel_world ++ evs ∧
               hc_consumer <$> evs = [0; 1] ≫= consumers_of two_channel_world ∧
               Forall (λ e, hc_arg e = 7) evs.
Proof.
  assert (reachable two_channel_world) as Hr.
  { exists two_channel_ops. reflexivity. }
  assert (Forall (live (channels two_channel_world)) [0; 1]) as Hl.
  { repeat constructor; eexists; reflexivity. }
  split; [exact Hr|]. split; [reflexivity|]. split; [exact Hl|].
  exact (produce_fan_out 0 (mkProducer [0; 1]) 7 two_channel_world
           Hr eq_refl Hl).
Defined.

(** C1: after [unbind_then_destroy] the producer is alive and its
    [channels()] still holds the address of the destroyed channel, so the
    state has a dangling pointer, and [produce] on it is undefined. *)
Theorem dangling_channel_after_unbind :
  ∃ w, run unbind_then_destroy empty_world = Some w ∧
       Producer_channels 0 w = Some [0] ∧
       ¬ live (channels w) 0 ∧
       ¬ no_dangling w ∧
       Producer_produce 0 1 w = None.
Proof.
  eexists. split; [reflexivity|]. split; [reflexivity|].
  assert (¬ live (channels (mkWorld [Some (mkProducer [0])] [None] []
                              ([] : list (@HookCall nat)))) 0) as Hdead.
  { intros [x Hx]. discriminate Hx. }
  split; [exact Hdead|]. split; [|reflexivity].
  intros (Hp & _). apply Hdead. apply (Hp 0 (mkProducer [0]) 0); [reflexivity|].
  by left.
Qed.

Lemma hook_sees_previous_state_witness :
  deref (consumers severed_world) 1 = Some (mkConsumer None 5) ∧
  ∃ w1 w', Consumer_on_new_state 1 9 severed_world = Some w1 ∧
           hooks w1 = hooks severed_world ++ [mkHookCall 1 5 9] ∧
           Consumer_state 1 w1 = Some 5 ∧
           Consumer_internal_produce 9 1 severed_world = Some w' ∧
           hooks w' = hooks w1 ∧
           Consumer_state 1 w' = Some 9.
Proof.
  split; [reflexivity|].
  exact (hook_sees_previous_state 9 1 severed_world (mkConsumer None 5) eq_refl).
Defined.



(** With a state type that has a default member initialiser, the storage
    does not matter: [state()] of a fresh consumer is the default-constructed
    value. *)
Example fresh_consumer_state_constructed :
  ∃ c w', Consumer_new 0 (mkLevel 9) (snd (Channel_new empty_world))
            = Some (c, w') ∧
          Consumer_state c w' = Some (mkLevel 3).
Proof. eexists. eexists. split; reflexivity. Qed.

Lemma channel_destruction_severs_witness :
  reachable fan_out_world ∧
  deref (consumers fan_out_world) 1 = Some (mkConsumer (Some 0) 0) ∧
  ∃ w', Channel_destroy 0 fan_out_world = Some w' ∧
        ¬ live (channels w') 0 ∧
        Consumer_channel 1 w' = Some None ∧
        Consumer_state 1 w' = Some 0 ∧
        is_Some (Consumer_destroy 1 w').
Proof.
  assert (reachable fan_out_world) as Hr by (exists fan_out_ops; reflexivity).
  split; [exact Hr|]. split; [reflexivity|].
  exact (channel_destruction_severs 0 1 (mkConsumer (Some 0) 0) fan_out_world
           Hr eq_refl eq_refl).
Defined.

(** The same slip seen through a rebinding: the destructor of the channel
    erases it from the list of its last producer only. *)
Example dangling_channel_after_rebind :
  ∃ w, run rebind_then_destroy empty_world = Some w ∧
       Producer_channels 0 w = Some [0] ∧
       Producer_channels 1 w = Some [1] ∧
       ¬ live (channels w) 0.
Proof.
  eexists. split; [reflexivity|]. split; [reflexivity|]. split; [reflexivity|].
  intros [x Hx]. discriminate Hx.
Qed.

(** At the k-th [produce] the hook sees the counter at k-1, and [state()] is
    k afterwards. *)
Example reaction_order_counter :
  ∃ w, run counter_ops empty_world = Some w ∧
       hooks w = [mkHookCall 0 0 1; mkHookCall 0 1 2; mkHookCall 0 2 3] ∧
       Consumer_state 0 w = Some 3.
Proof. eexists. split; [reflexivity|]. split; reflexivity. Qed.

Lemma producer_destruction_unbinds_witness :
  reachable two_channel_world ∧
  deref (channels two_channel_world) 0 = Some (mkChannel [0] (Some 0)) ∧
  deref (producers two_channel_world) 0 = Some (mkProducer [0; 1]) ∧
  Forall (live (channels two_channel_world)) [0; 1] ∧
  ∃ w', Producer_destroy 0 two_channel_world = Some w' ∧
        Channel_producer 0 w' = Some None ∧
        Channel_consumers 0 w' = Some [0] ∧
        ∃ p2 w2, Producer_new 0 w' = Some (p2, w2) ∧
                 Channel_producer 0 w2 = Some (Some p2) ∧
                 Channel_consumers 0 w2 = Some [0] ∧
                 ∀ s, ∃ w3, Producer_produce p2 s w2 = Some w3 ∧
                            ∀ c, c ∈ [0] → Consumer_state c w3 = Some s.
Proof.
  assert (reachable two_channel_world) as Hr.
  { exists two_channel_ops. reflexivity. }
  assert (Forall (live (channels two_channel_world)) [0; 1]) as Hl.
  { repeat constructor; eexists; reflexivity. }
  split; [exact Hr|]. split; [reflexivity|]. split; [reflexivity|].
  split; [exact Hl|].
  exact (producer_destruction_unbinds 0 (mkChannel [0] (Some 0)) 0
           (mkProducer [0; 1]) two_channel_world Hr eq_refl eq_refl eq_refl Hl).
Defined.

Lemma consumer_destruction_spares_siblings_witness :
  reachable fan_out_world ∧
  deref (channels fan_out_world) 0 = Some (mkChannel [0; 1] (Some 0)) ∧
  deref (producers fan_out_world) 0 = Some (mkProducer [0]) ∧
  Forall (live (channels fan_out_world)) [0] ∧
  ∃ w', Consumer_destroy 0 fan_out_world = Some w' ∧
        Channel_consumers 0 w' = Some (erase [0; 1] 0) ∧
        (0 ∉ erase [0; 1] 0) ∧
        (1 ∈ erase [0; 1] 0) ∧
        Consumer_channel 1 w' = Some (Some 0) ∧
        Consumer_state 1 w' = Consumer_state 1 fan_out_world ∧
        ∀ s, ∃ w'', Producer_produce 0 s w' = Some w'' ∧
                    Consumer_state 1 w'' = Some s.
Proof.
  assert (reachable fan_out_world) as Hr by (exists fan_out_ops; reflexivity).
  assert (Forall (live (channels fan_out_world)) [0]) as Hl.
  { repeat constructor; eexists; reflexivity. }
  split; [exact Hr|]. split; [reflexivity|]. split; [reflexivity|].
  split; [exact Hl|].
  refine (consumer_destruction_spares_siblings 0 (mkChannel [0; 1] (Some 0))
            0 1 0 (mkProducer [0]) fan_out_world Hr eq_refl _ _ _ eq_refl
            eq_refl Hl).
  - left.
  - right. left.
  - discriminate.
Defined.

Lemma set_producer_rebinds_witness :
  reachable two_channel_world ∧
  deref (channels two_channel_world) 0 = Some (mkChannel [0] (Some 0)) ∧
  1 ≠ 0 ∧
  deref (producers two_channel_world) 1 = Some (mkProducer [2]) ∧
  ∃ w', Channel_set_producer 0 (Some 1) two_channel_world = Some w' ∧
        Channel_producer 0 w' = Some (Some 1) ∧
        Producer_channels 1 w' = Some ([2] ++ [0]) ∧
        Producer_channels 0 w' = Producer_channels 0 two_channel_world ∧
        ∃ l1, Producer_channels 0 w' = Some l1 ∧ 0 ∈ l1.
Proof.
  assert (reachable two_channel_world) as Hr.
  { exists two_channel_ops. reflexivity. }
  assert (1 ≠ 0) as Hne by discriminate.
  split; [exact Hr|]. split; [reflexivity|]. split; [exact Hne|].
  split; [reflexivity|].
  exact (set_producer_rebinds 0 (mkChannel [0] (Some 0)) 0 1 (mkProducer [2])
           two_channel_world Hr eq_refl eq_refl Hne eq_refl).
Defined.

Lemma severed_is_final_witness :
  reachable severed_world ∧
  deref (consumers severed_world) 1 = Some (mkConsumer None 5) ∧
  run later_ops severed_world = Some later_world ∧
  (live (consumers later_world) 1 →
     Consumer_channel 1 later_world = Some None ∧
     Consumer_state 1 later_world = Some 5) ∧
  ∃ evs, hooks later_world = hooks severed_world ++ evs ∧
         Forall (λ e, hc_consumer e ≠ 1) evs.
Proof.
  assert (reachable severed_world) as Hr by (exists severed_ops; reflexivity).
  split; [exact Hr|]. split; [reflexivity|]. split; [reflexivity|].
  exact (severed_is_final 1 (mkConsumer None 5) later_ops severed_world
           later_world Hr eq_refl eq_refl eq_refl).
Defined.

Lemma unbound_channel_still_fed_witness :
  reachable fan_out_world ∧
  deref (channels fan_out_world) 0 = Some (mkChannel [0; 1] (Some 0)) ∧
  deref (producers fan_out_world) 0 = Some (mkProducer [0]) ∧
  Forall (live (channels fan_out_world)) [0] ∧
  ∃ w', Channel_set_producer 0 None fan_out_world = Some w' ∧
        Channel_producer 0 w' = Some None ∧
        Channel_consumers 0 w' = Some [0; 1] ∧
        Producer_channels 0 w' = Some [0] ∧
        0 ∈ [0] ∧
        ∀ s, ∃ w'', Producer_produce 0 s w' = Some w'' ∧
                    ∀ c, c ∈ [0; 1] → Consumer_state c w'' = Some s.
Proof.
  assert (reachable fan_out_world) as Hr by (exists fan_out_ops; reflexivity).
  assert (Forall (live (channels fan_out_world)) [0]) as Hl.
  { repeat constructor; eexists; reflexivity. }
  split; [exact Hr|]. split; [reflexivity|]. split; [reflexivity|].
  split; [exact Hl|].
  exact (unbound_channel_still_fed 0 (mkChannel [0; 1] (Some 0)) 0
           (mkProducer [0]) fan_out_world Hr eq_refl eq_refl eq_refl Hl).
Defined.

(** * Further properties of the code *)

Section Accessors.
Context {State : Type}.
Implicit Types (w : @World State) (c ch p : addr).

Lemma Channel_consumers_Some ch w l :
  Channel_consumers ch w = Some l ↔
  ∃ chv, deref (channels w) ch = Some chv ∧ consumers_ chv = l.
Proof.
  unfold Channel_consumers. rewrite fmap_Some.
  split; [intros (x & ? & ->)|intros (x & ? & <-)]; by exists x.
Qed.

Lemma Channel_producer_Some ch w po :
  Channel_producer ch w = Some po ↔
  ∃ chv, deref (channels w) ch = Some chv ∧ producer_ chv = po.
Proof.
  unfold Channel_producer. rewrite fmap_Some.
  split; [intros (x & ? & ->)|intros (x & ? & <-)]; by exists x.
Qed.

Lemma Consumer_channel_Some c w cho :
  Consumer_channel c w = Some cho ↔
  ∃ cv, deref (consumers w) c = Some cv ∧ channel_ cv = cho.
Proof.
  unfold Consumer_channel. rewrite fmap_Some.
  split; [intros (x & ? & ->)|intros (x & ? & <-)]; by exists x.
Qed.

Lemma Producer_channels_Some p w l :
  Producer_channels p w = Some l ↔
  ∃ pv, deref (producers w) p = Some pv ∧ channels_ pv = l.
Proof.
  unfold Producer_channels. rewrite fmap_Some.
  split; [intros (x & ? & ->)|intros (x & ? & <-)]; by exists x.
Qed.

Lemma erase_notin (l : list addr) x : x ∉ l → erase l x = l.
Proof.
  unfold erase. induction l as [|y l IH]; [done|].
  rewrite not_elem_of_cons. intros [Hne Hl].
  rewrite filter_cons_True by congruence. by rewrite IH.
Qed.

Lemma erase_app (l1 l2 : list addr) x :
  erase (l1 ++ l2) x = erase l1 x ++ erase l2 x.
Proof. apply filter_app. Qed.

Lemma erase_singleton x : erase [x] x = [].
Proof. unfold erase. by rewrite filter_cons_False by tauto. Qed.

End Accessors.

(** ** Invariants, definedness and frames *)

Section Safety.
Context {State : Type} `{!AState State}.
Implicit Types (s : State) (w : @World State) (c ch p : addr) (l chs : list addr).

(** X1: in every reachable state the links between channels and consumers
    and from a channel to its producer are consistent, as seen through the
    accessors: whoever is on [ch.consumers()] has [channel()] equal to [ch];
    a consumer whose [channel()] is [ch] is on [ch.consumers()]; and a channel
    whose [producer()] is [p] is on [p.channels()]. *)
Theorem links_consistent w :
  reachable w →
  (∀ ch l c, Channel_consumers ch w = Some l → c ∈ l →
     Consumer_channel c w = Some (Some ch)) ∧
  (∀ c ch, Consumer_channel c w = Some (Some ch) →
     ∃ l, Channel_consumers ch w = Some l ∧ c ∈ l) ∧
  (∀ ch p, Channel_producer ch w = Some (Some p) →
     ∃ l, Producer_channels p w = Some l ∧ ch ∈ l).
Proof.
  intros Hr. destruct (reachable_links_ok _ Hr) as (H1 & H2 & H3).
  split; [|split].
  - intros ch l c (chv & E & <-)%Channel_consumers_Some Hin.
    destruct (H1 _ _ _ E Hin) as (cv & Ecv & Hcv).
    apply Consumer_channel_Some. by exists cv.
  - intros c ch (cv & E & Hch)%Consumer_channel_Some.
    destruct (H2 _ _ _ E Hch) as (chv & Echv & Hin).
    exists (consumers_ chv). split; [|done].
    apply Channel_consumers_Some. by exists chv.
  - intros ch p (chv & E & Hp)%Channel_producer_Some.
    destruct (H3 _ _ _ E Hp) as (pv & Epv & Hin).
    exists (channels_ pv). split; [|done].
    apply Producer_channels_Some. by exists pv.
Qed.

Lemma Channel_set_producer_consumers ch po w w' a chv' :
  Channel_set_producer ch po w = Some w' →
  deref (channels w') a = Some chv' →
  ∃ chv, deref (channels w) a = Some chv ∧ consumers_ chv' = consumers_ chv.
Proof.
  unfold Channel_set_producer.
  destruct (deref (channels w) ch) as [chv|] eqn:E; [|done].
  assert (deref (store (channels w) ch (mkChannel (consumers_ chv) po)) a
          = Some chv' →
          ∃ chv0, deref (channels w) a = Some chv0 ∧
                  consumers_ chv' = consumers_ chv0) as Hst.
  { rewrite (deref_store _ _ _ _ _ E). case_decide.
    - subst a. intros [= <-]. by exists chv.
    - intros E'. by exists chv'. }
  destruct po as [pa|].
  - simpl. destruct (deref (producers w) pa); [|done]. by intros [= <-].
  - by intros [= <-].
Qed.

Lemma consumers_nodup_step o w w' :
  links_ok w → consumers_nodup w → step o w = Some w' → consumers_nodup w'.
Proof.
  intros Hok Hnd. destruct o as [|ch|ch junk|ch po|p s|ch|p|c]; simpl.
  - intros [= <-] a chv'. unfold Channel_new, alloc. simpl.
    rewrite deref_alloc. case_decide.
    + intros [= <-]. constructor.
    + apply Hnd.
  - unfold Producer_new, alloc.
    destruct (Channel_set_producer _ _ _) as [w1|] eqn:E; [|done].
    intros [= <-] a chv' E'.
    destruct (Channel_set_producer_consumers _ _ _ _ _ _ E E')
      as (chv & Echv & ->). by apply (Hnd a).
  - unfold Consumer_new, alloc, Channel_internal_add_consumer. simpl.
    destruct (deref (channels w) ch) as [chv|] eqn:E; [|done].
    intros [= <-] a chv'. simpl. rewrite (deref_store _ _ _ _ _ E).
    case_decide; [|apply Hnd]. subst a. intros [= <-]. simpl.
    apply NoDup_app. split; [by apply (Hnd ch)|]. split; [|apply NoDup_singleton].
    intros c Hin ->%list_elem_of_singleton. destruct Hok as (H1 & _).
    destruct (H1 _ _ _ E Hin) as (cv & Ecv & _). by rewrite deref_fresh in Ecv.
  - intros E a chv' E'.
    destruct (Channel_set_producer_consumers _ _ _ _ _ _ E E')
      as (chv & Echv & ->). by apply (Hnd a).
  - intros E. apply Producer_produce_inv in E as (pv & _ & _ & _ & _ & Hch & _).
    intros a chv'. rewrite Hch. apply Hnd.
  - intros E.
    assert (∃ chv, deref (channels w) ch = Some chv) as [chv Echv].
    { revert E. unfold Channel_destroy.
      destruct (deref (channels w) ch); [by eexists|done]. }
    destruct (Channel_destroy_Some ch chv w Hok Echv) as (w'' & E2 & _ & _ & Hcha).
    assert (w'' = w') as -> by congruence.
    intros a chv'. rewrite Hcha. case_decide; [done|apply Hnd].
  - unfold Producer_destroy. destruct (deref (producers w) p) as [pv|]; [|done].
    destruct (for_each _ _ _) as [w1|] eqn:E1; [|done].
    apply unbind_loop_inv in E1 as (_ & _ & _ & _ & Hd).
    intros [= <-] a chv'. simpl. rewrite Hd.
    destruct (deref (channels w) a) as [chv|] eqn:Echv; [|done]. simpl.
    intros [= <-]. case_decide; simpl; by apply (Hnd a).
  - unfold Consumer_destroy. destruct (deref (consumers w) c) as [cv|]; [|done].
    destruct (channel_ cv) as [cha|].
    + destruct (deref (channels w) cha) as [chv|] eqn:Echa; [|done].
      intros [= <-] a chv'. simpl. rewrite (deref_store _ _ _ _ _ Echa).
      case_decide; [|apply Hnd]. subst a. intros [= <-]. simpl.
      apply NoDup_filter. by apply (Hnd cha).
    + intros [= <-]. apply Hnd.
Qed.

Lemma reachable_consumers_nodup w : reachable w → consumers_nodup w.
Proof.
  intros [ops Hrun].
  assert (∀ (u : @World State), links_ok u → consumers_nodup u →
            run ops u = Some w → consumers_nodup w) as Hgen.
  { clear Hrun. induction ops as [|o ops IH]; intros u Hok Hnd.
    - by intros [= <-].
    - rewrite run_cons. destruct (step o u) as [u1|] eqn:E; [|done].
      apply IH; [by eapply links_ok_step|by eapply consumers_nodup_step]. }
  apply (Hgen empty_world); [apply links_ok_empty| |done].
  intros ch chv E. by destruct ch.
Qed.

(** X2: in every reachable state no consumer is registered twice: a
    channel's [consumers()] has no duplicates, and no consumer is on the
    lists of two channels. *)
Theorem consumer_registered_once w :
  reachable w →
  (∀ ch l, Channel_consumers ch w = Some l → NoDup l) ∧
  (∀ ch1 ch2 l1 l2 c,
     Channel_consumers ch1 w = Some l1 → Channel_consumers ch2 w = Some l2 →
     c ∈ l1 → c ∈ l2 → ch1 = ch2).
Proof.
  intros Hr. split.
  - intros ch l (chv & E & <-)%Channel_consumers_Some.
    by apply (reachable_consumers_nodup w Hr ch).
  - intros ch1 ch2 l1 l2 c (chv1 & E1 & <-)%Channel_consumers_Some
      (chv2 & E2 & <-)%Channel_consumers_Some Hin1 Hin2.
    destruct (reachable_links_ok _ Hr) as (H1 & _).
    destruct (H1 _ _ _ E1 Hin1) as (cv1 & Ecv1 & Hcv1).
    destruct (H1 _ _ _ E2 Hin2) as (cv2 & Ecv2 & Hcv2). congruence.
Qed.

(** X3: in every reachable state the destructors of [Channel] and
    [Consumer] are defined on every live object: they never reach for a
    destroyed one. *)
Theorem channel_and_consumer_destructors_defined w :
  reachable w →
  (∀ ch, live (channels w) ch → is_Some (Channel_destroy ch w)) ∧
  (∀ c, live (consumers w) c → is_Some (Consumer_destroy c w)).
Proof.
  intros Hr. pose proof (reachable_links_ok _ Hr) as Hok. split.
  - intros ch [chv E].
    destruct (Channel_destroy_Some ch chv w Hok E) as (w' & Hrun & _).
    by exists w'.
  - intros c [cv E]. unfold Consumer_destroy. rewrite E.
    destruct (channel_ cv) as [cha|] eqn:Hch; [|by eexists].
    destruct Hok as (_ & H2 & _).
    destruct (H2 _ _ _ E Hch) as (chv & -> & _). by eexists.
Qed.

(** X4: for a live producer in a reachable state, [produce] is defined
    exactly when every channel on the producer's list is alive, and so is the
    producer's destructor. *)
Theorem producer_calls_defined_iff p pv s w :
  reachable w →
  deref (producers w) p = Some pv →
  (is_Some (Producer_produce p s w) ↔ Forall (live (channels w)) (channels_ pv)) ∧
  (is_Some (Producer_destroy p w) ↔ Forall (live (channels w)) (channels_ pv)).
Proof.
  intros Hr E. pose proof (reachable_links_ok _ Hr) as Hok. split; split.
  - intros [w' Hrun].
    apply Producer_produce_inv in Hrun as (pv' & E' & Hl & _). congruence.
  - intros Hl. destruct (produce_reaches p pv s w Hok E Hl) as (w' & Hrun & _).
    by exists w'.
  - intros [w' Hrun]. revert Hrun. unfold Producer_destroy. rewrite E.
    destruct (for_each _ _ _) as [w1|] eqn:E1; [|done].
    intros _. by apply unbind_loop_inv in E1 as [Hl _].
  - intros Hl. destruct (Producer_destroy_Some p pv w E Hl) as (w' & Hrun & _).
    by exists w'.
Qed.

(** X5: [produce] changes nothing but the cached state of the consumers it
    delivers to: the producers, the channels and every consumer's [channel()]
    stay as they are, and so does every consumer that is on none of the
    producer's channels. *)
Theorem produce_frame p pv s w w' :
  deref (producers w) p = Some pv →
  Producer_produce p s w = Some w' →
  producers w' = producers w ∧
  channels w' = channels w ∧
  (∀ c, Consumer_channel c w' = Consumer_channel c w) ∧
  (∀ c, c ∉ receivers w (channels_ pv) →
     deref (consumers w') c = deref (consumers w) c).
Proof.
  intros E Hrun. apply Producer_produce_inv in Hrun as (pv' & E' & _ & _ & Hd).
  assert (pv' = pv) as -> by congruence.
  split; [by destruct Hd as (? & _)|]. split; [by destruct Hd as (_ & ? & _)|].
  split.
  - intros c. destruct Hd as (_ & _ & Hd & _). unfold Consumer_channel.
    rewrite Hd. destruct (deref (consumers w) c); simpl; [|done].
    by case_decide.
  - intros c Hc. by eapply delivered_other.
Qed.

(** X6: constructing a consumer on a live channel and destroying it again
    leaves every object as it was: the channel's list is restored, and no
    other channel, producer or consumer has changed. *)
Theorem consumer_new_destroy_round_trip ch junk w :
  reachable w →
  live (channels w) ch →
  ∃ c w1 w2, Consumer_new ch junk w = Some (c, w1) ∧
             Consumer_destroy c w1 = Some w2 ∧
             producers w2 = producers w ∧
             hooks w2 = hooks w ∧
             (∀ a, deref (channels w2) a = deref (channels w) a) ∧
             (∀ a, deref (consumers w2) a = deref (consumers w) a).
Proof.
  intros Hr [chv E]. destruct (reachable_links_ok _ Hr) as (H1 & _).
  set (c := length (consumers w)).
  set (w1 := mkWorld (producers w)
               (store (channels w) ch
                  (mkChannel (consumers_ chv ++ [c]) (producer_ chv)))
               (consumers w ++
                [Some (mkConsumer (Some ch) (default_initialised junk))])
               (hooks w)).
  assert (Consumer_new ch junk w = Some (c, w1)) as Hnew.
  { unfold Consumer_new, alloc, Channel_internal_add_consumer.
    cbn [consumers channels with_consumers]. by rewrite E. }
  assert (deref (consumers w1) c =
          Some (mkConsumer (Some ch) (default_initialised junk))) as Ec.
  { unfold w1, c. cbn [consumers]. by rewrite deref_alloc, decide_True. }
  assert (deref (channels w1) ch =
          Some (mkChannel (consumers_ chv ++ [c]) (producer_ chv))) as Ech.
  { unfold w1. cbn [channels]. by rewrite (deref_store _ _ _ _ _ E), decide_True. }
  set (w2 := mkWorld (producers w)
               (store (channels w1) ch
                  (mkChannel (erase (consumers_ chv ++ [c]) c) (producer_ chv)))
               (free (consumers w1) c) (hooks w)).
  assert (Consumer_destroy c w1 = Some w2) as Hdes.
  { unfold Consumer_destroy. rewrite Ec. cbn [channel_]. by rewrite Ech. }
  exists c, w1, w2. split; [done|]. split; [done|]. split; [done|].
  split; [done|]. split.
  - intros a. unfold w2. cbn [channels]. rewrite (deref_store _ _ _ _ _ Ech).
    unfold w1. cbn [channels]. rewrite (deref_store _ _ _ _ _ E).
    case_decide; [|done]. subst a.
    rewrite erase_app, erase_singleton, app_nil_r, erase_notin.
    + rewrite E. by destruct chv.
    + intros Hin. destruct (H1 _ _ _ E Hin) as (cv & Ecv & _).
      unfold c in Ecv. by rewrite deref_fresh in Ecv.
  - intros a. unfold w2, w1, c. cbn [consumers].
    rewrite deref_free, deref_alloc.
    destruct (decide (a = length (consumers w))) as [->|Hne]; [|done].
    by rewrite deref_fresh.
Qed.

(** X7: the destructor of a producer whose listed channels are all alive
    clears [producer()] of every channel on its list, also of a channel that
    has since been rebound to another live producer; that producer still has
    the channel on its list. *)
Theorem displaced_producer_destruction_unbinds ch chv p1 pv1 p2 w :
  reachable w →
  deref (channels w) ch = Some chv →
  producer_ chv = Some p2 →
  p1 ≠ p2 →
  deref (producers w) p1 = Some pv1 →
  ch ∈ channels_ pv1 →
  Forall (live (channels w)) (channels_ pv1) →
  ∃ w', Producer_destroy p1 w = Some w' ∧
        Channel_producer ch w' = Some None ∧
        Producer_channels p2 w' = Producer_channels p2 w ∧
        ∃ l2, Producer_channels p2 w' = Some l2 ∧ ch ∈ l2.
Proof.
  intros Hr E Hp Hne E1 Hin Hl.
  destruct (reachable_links_ok _ Hr) as (_ & _ & H3).
  destruct (H3 _ _ _ E Hp) as (pv2 & E2 & Hin2).
  destruct (Producer_destroy_Some p1 pv1 w E1 Hl) as (w' & Hrun & _ & _ & Hch & Hpr).
  exists w'. split; [done|].
  assert (Producer_channels p2 w' = Producer_channels p2 w) as Hsame.
  { unfold Producer_channels. rewrite Hpr. by rewrite decide_False. }
  split; [|split; [done|]].
  - unfold Channel_producer. rewrite Hch, E. simpl. by rewrite decide_True.
  - exists (channels_ pv2). split; [|done]. rewrite Hsame.
    unfold Producer_channels. by rewrite E2.
Qed.

End Safety.

Lemma links_consistent_witness :
  reachable two_channel_world ∧
  (∀ ch l c, Channel_consumers ch two_channel_world = Some l → c ∈ l →
     Consumer_channel c two_channel_world = Some (Some ch)) ∧
  (∀ c ch, Consumer_channel c two_channel_world = Some (Some ch) →
     ∃ l, Channel_consumers ch two_channel_world = Some l ∧ c ∈ l) ∧
  (∀ ch p, Channel_producer ch two_channel_world = Some (Some p) →
     ∃ l, Producer_channels p two_channel_world = Some l ∧ ch ∈ l).
Proof.
  assert (reachable two_channel_world) as Hr.
  { exists two_channel_ops. reflexivity. }
  split; [exact Hr|]. exact (links_consistent two_channel_world Hr).
Defined.

Lemma consumer_registered_once_witness :
  reachable fan_out_world ∧
  (∀ ch l, Channel_consumers ch fan_out_world = Some l → NoDup l) ∧
  (∀ ch1 ch2 l1 l2 c,
     Channel_consumers ch1 fan_out_world = Some l1 →
     Channel_consumers ch2 fan_out_world = Some l2 →
     c ∈ l1 → c ∈ l2 → ch1 = ch2).
Proof.
  assert (reachable fan_out_world) as Hr by (exists fan_out_ops; reflexivity).
  split; [exact Hr|]. exact (consumer_registered_once fan_out_world Hr).
Defined.

Lemma channel_and_consumer_destructors_defined_witness :
  reachable severed_world ∧
  (∀ ch, live (channels severed_world) ch →
     is_Some (Channel_destroy ch severed_world)) ∧
  (∀ c, live (consumers severed_world) c →
     is_Some (Consumer_destroy c severed_world)).
Proof.
  assert (reachable severed_world) as Hr by (exists severed_ops; reflexivity).
  split; [exact Hr|].
  exact (channel_and_consumer_destructors_defined severed_world Hr).
Defined.

Lemma producer_calls_defined_iff_witness :
  reachable two_channel_world ∧
  deref (producers two_channel_world) 0 = Some (mkProducer [0; 1]) ∧
  (is_Some (Producer_produce 0 4 two_channel_world) ↔
     Forall (live (channels two_channel_world)) [0; 1]) ∧
  (is_Some (Producer_destroy 0 two_channel_world) ↔
     Forall (live (channels two_channel_world)) [0; 1]).
Proof.
  assert (reachable two_channel_world) as Hr.
  { exists two_channel_ops. reflexivity. }
  split; [exact Hr|]. split; [reflexivity|].
  exact (producer_calls_defined_iff 0 (mkProducer [0; 1]) 4 two_channel_world
           Hr eq_refl).
Defined.

Lemma produce_frame_witness :
  deref (producers later_world) 1 = Some (mkProducer [1]) ∧
  Producer_produce 1 7 later_world =
    Some (mkWorld (producers later_world) (channels later_world)
            [None; Some (mkConsumer None 5); Some (mkConsumer (Some 1) 7)]
            (hooks later_world ++ [mkHookCall 2 9 7])) ∧
  producers later_world = producers later_world ∧
  channels later_world = channels later_world ∧
  (∀ c, Consumer_channel c
          (mkWorld (producers later_world) (channels later_world)
             [None; Some (mkConsumer None 5); Some (mkConsumer (Some 1) 7)]
             (hooks later_world ++ [mkHookCall 2 9 7])) =
        Consumer_channel c later_world) ∧
  (∀ c, c ∉ receivers later_world [1] →
     deref [None; Some (mkConsumer None 5); Some (mkConsumer (Some 1) 7)] c =
     deref (consumers later_world) c).
Proof.
  split; [reflexivity|]. split; [reflexivity|].
  exact (produce_frame 1 (mkProducer [1]) 7 later_world _ eq_refl eq_refl).
Defined.

Lemma consumer_new_destroy_round_trip_witness :
  reachable fan_out_world ∧
  live (channels fan_out_world) 0 ∧
  ∃ c w1 w2, Consumer_new 0 4 fan_out_world = Some (c, w1) ∧
             Consumer_destroy c w1 = Some w2 ∧
             producers w2 = producers fan_out_world ∧
             hooks w2 = hooks fan_out_world ∧
             (∀ a, deref (channels w2) a = deref (channels fan_out_world) a) ∧
             (∀ a, deref (consumers w2) a = deref (consumers fan_out_world) a).
Proof.
  assert (reachable fan_out_world) as Hr by (exists fan_out_ops; reflexivity).
  assert (live (channels fan_out_world) 0) as Hl by (eexists; reflexivity).
  split; [exact Hr|]. split; [exact Hl|].
  exact (consumer_new_destroy_round_trip 0 4 fan_out_world Hr Hl).
Defined.

Lemma displaced_producer_destruction_unbinds_witness :
  reachable rebound_world ∧
  deref (channels rebound_world) 0 = Some (mkChannel [0] (Some 1)) ∧
  0 ≠ 1 ∧
  deref (producers rebound_world) 0 = Some (mkProducer [0]) ∧
  0 ∈ [0] ∧
  Forall (live (channels rebound_world)) [0] ∧
  ∃ w', Producer_destroy 0 rebound_world = Some w' ∧
        Channel_producer 0 w' = Some None ∧
        Producer_channels 1 w' = Producer_channels 1 rebound_world ∧
        ∃ l2, Producer_channels 1 w' = Some l2 ∧ 0 ∈ l2.
Proof.
  assert (reachable rebound_world) as Hr by (exists rebound_ops; reflexivity).
  assert (0 ≠ 1) as Hne by discriminate.
  assert (0 ∈ [0]) as Hin by left.
  assert (Forall (live (channels rebound_world)) [0]) as Hl.
  { repeat constructor; eexists; reflexivity. }
  split; [exact Hr|]. split; [reflexivity|]. split; [exact Hne|].
  split; [reflexivity|]. split; [exact Hin|]. split; [exact Hl|].
  exact (displaced_producer_destruction_unbinds 0 (mkChannel [0] (Some 1)) 0
           (mkProducer [0]) 1 rebound_world Hr eq_refl eq_refl Hne eq_refl
           Hin Hl).
Defined.

(** ** Clients that never displace a producer *)

Section Discipline.
Context {State : Type} `{!AState State}.
Implicit Types (s : State) (w : @World State) (c ch p : addr) (l chs : list addr).

Lemma step_disciplined_step o w w' :
  step_disciplined o w = Some w' → binds_unbound o w = true ∧ step o w = Some w'.
Proof. unfold step_disciplined. by destruct (binds_unbound o w). Qed.

Lemma run_disciplined_cons o ops w :
  run_disciplined (o :: ops) w =
  match step_disciplined o w with
  | Some w1 => run_disciplined ops w1
  | None => None
  end.
Proof. done. Qed.

Lemma run_disciplined_run ops w w' :
  run_disciplined ops w = Some w' → run ops w = Some w'.
Proof.
  revert w. induction ops as [|o ops IH]; intros w; [done|].
  rewrite run_disciplined_cons, run_cons.
  destruct (step_disciplined o w) as [w1|] eqn:E; [|done].
  apply step_disciplined_step in E as [_ ->]. apply IH.
Qed.

Lemma disciplined_reachable w : disciplined w → reachable w.
Proof. intros [ops Hrun]. exists ops. by apply run_disciplined_run. Qed.

Lemma disciplined_step o w w' :
  disciplined w → binds_unbound o w = true → step o w = Some w' →
  disciplined w'.
Proof.
  intros [ops Hrun] Hg E. exists (ops ++ [o]). unfold run_disciplined in *.
  rewrite for_each_app, Hrun. simpl. unfold step_disciplined. by rewrite Hg, E.
Qed.

(** What the destructor of a channel does to the producers. *)
Lemma Channel_destroy_producers ch chv w w' p :
  deref (channels w) ch = Some chv →
  Channel_destroy ch w = Some w' →
  deref (producers w') p =
  (λ pv, if decide (producer_ chv = Some p)
         then mkProducer (erase (channels_ pv) ch) else pv)
    <$> deref (producers w) p.
Proof.
  intros E. unfold Channel_destroy. rewrite E.
  destruct (for_each _ _ _) as [w1|] eqn:E1; [|done].
  apply sever_loop_inv in E1 as (_ & Hp1 & _).
  destruct (producer_ chv) as [pa|].
  - unfold Producer_internal_remove_channel. rewrite Hp1.
    destruct (deref (producers w) pa) as [pva|] eqn:Epa; [|done].
    intros [= <-]. simpl. rewrite (deref_store _ _ _ _ _ Epa).
    destruct (decide (p = pa)) as [->|Hne].
    + rewrite Epa. simpl. by rewrite decide_True.
    + destruct (deref (producers w) p); simpl; [|done].
      rewrite decide_False; [done|congruence].
  - intros [= <-]. simpl. rewrite Hp1.
    by destruct (deref (producers w) p).
Qed.

Lemma set_producer_keeps_discipline ch po w w' :
  producers_linked w → channels_nodup w →
  Channel_producer ch w = Some None →
  Channel_set_producer ch po w = Some w' →
  producers_linked w' ∧ channels_nodup w'.
Proof.
  intros HP HN (chv & E & Hnone)%Channel_producer_Some.
  unfold Channel_set_producer. rewrite E. destruct po as [pa|].
  - simpl. destruct (deref (producers w) pa) as [pva|] eqn:Epa; [|done].
    intros [= <-]. split.
    + intros p pv ch'. simpl. rewrite (deref_store _ _ _ _ _ Epa).
      rewrite (deref_store _ _ _ _ _ E). case_decide.
      * subst p. intros [= <-]. simpl.
        rewrite elem_of_app, list_elem_of_singleton. intros [Hin| ->].
        -- destruct (HP _ _ _ Epa Hin) as (chv' & Echv' & Hp').
           rewrite decide_False by (intros ->; congruence). by exists chv'.
        -- rewrite decide_True by done. by eexists.
      * intros Epv Hin. destruct (HP _ _ _ Epv Hin) as (chv' & Echv' & Hp').
        rewrite decide_False by (intros ->; congruence). by exists chv'.
    + intros p pv. simpl. rewrite (deref_store _ _ _ _ _ Epa). case_decide.
      * subst p. intros [= <-]. simpl. apply NoDup_app.
        split; [by apply (HN pa)|]. split; [|apply NoDup_singleton].
        intros ch' Hin ->%list_elem_of_singleton.
        destruct (HP _ _ _ Epa Hin) as (chv' & Echv' & Hp'). congruence.
      * apply HN.
  - intros [= <-]. split; [|done].
    intros p pv ch'. simpl. rewrite (deref_store _ _ _ _ _ E).
    intros Epv Hin. destruct (HP _ _ _ Epv Hin) as (chv' & Echv' & Hp').
    rewrite decide_False by (intros ->; congruence). by exists chv'.
Qed.

Lemma discipline_step o w w' :
  links_ok w → producers_linked w → channels_nodup w →
  binds_unbound o w = true → step o w = Some w' →
  producers_linked w' ∧ channels_nodup w'.
Proof.
  intros Hok HP HN. destruct o as [|ch|ch junk|ch po|p s|ch|p|c]; simpl.
  - intros _ [= <-]. split; [|done].
    intros p pv ch Epv Hin. unfold Channel_new, alloc. simpl.
    destruct (HP _ _ _ Epv Hin) as (chv & Echv & Hp). exists chv.
    split; [|done]. rewrite deref_alloc, decide_False; [done|].
    intros ->. by rewrite deref_fresh in Echv.
  - intros Hg%bool_decide_eq_true. unfold Producer_new, alloc.
    destruct (Channel_set_producer _ _ _) as [w1|] eqn:E; [|done].
    intros [= <-]. eapply set_producer_keeps_discipline; [| | |exact E].
    + intros p pv ch'. simpl. rewrite deref_alloc. case_decide.
      * intros [= <-] Hin. by apply elem_of_nil in Hin.
      * apply HP.
    + intros p pv. simpl. rewrite deref_alloc. case_decide.
      * intros [= <-]. constructor.
      * apply HN.
    + done.
  - intros _. unfold Consumer_new, alloc, Channel_internal_add_consumer. simpl.
    destruct (deref (channels w) ch) as [chv|] eqn:E; [|done].
    intros [= <-]. split; [|done].
    intros p pv ch'. simpl. rewrite (deref_store _ _ _ _ _ E).
    intros Epv Hin. destruct (HP _ _ _ Epv Hin) as (chv' & Echv' & Hp').
    case_decide.
    + subst ch'. eexists. split; [done|]. simpl. congruence.
    + by exists chv'.
  - intros Hg%bool_decide_eq_true E.
    by eapply set_producer_keeps_discipline.
  - intros _ E. apply Producer_produce_inv in E as (pv & _ & _ & _ & Hpr & Hch & _).
    split.
    + intros p' pv' ch'. rewrite Hpr, Hch. apply HP.
    + intros p' pv'. rewrite Hpr. apply HN.
  - intros _ E.
    assert (∃ chv, deref (channels w) ch = Some chv) as [chv Echv].
    { revert E. unfold Channel_destroy.
      destruct (deref (channels w) ch); [by eexists|done]. }
    pose proof (λ p, Channel_destroy_producers ch chv w w' p Echv E) as Hpr.
    destruct (Channel_destroy_Some ch chv w Hok Echv) as (w'' & E2 & _ & _ & Hcha).
    assert (w'' = w') as -> by congruence. split.
    + intros p pv' ch'. rewrite Hpr, Hcha.
      destruct (deref (producers w) p) as [pv|] eqn:Epv; [|done]. simpl.
      intros [= <-]. case_decide as Hd.
      * simpl. rewrite elem_of_erase. intros [Hin Hne].
        rewrite decide_False by done. by apply (HP p pv).
      * intros Hin. destruct (HP _ _ _ Epv Hin) as (chv' & Echv' & Hp').
        rewrite decide_False by (intros ->; congruence). by exists chv'.
    + intros p pv'. rewrite Hpr.
      destruct (deref (producers w) p) as [pv|] eqn:Epv; [|done]. simpl.
      intros [= <-]. case_decide; [|by apply (HN p)].
      simpl. apply NoDup_filter. by apply (HN p).
  - intros _. unfold Producer_destroy.
    destruct (deref (producers w) p) as [pv0|] eqn:E0; [|done].
    destruct (for_each _ _ _) as [w1|] eqn:E1; [|done].
    apply unbind_loop_inv in E1 as (_ & Hp1 & _ & _ & Hd).
    intros [= <-]. split.
    + intros p' pv' ch'. simpl. rewrite deref_free, Hp1, Hd.
      case_decide; [done|]. intros Epv Hin.
      destruct (HP _ _ _ Epv Hin) as (chv' & Echv' & Hp'). rewrite Echv'. simpl.
      rewrite decide_False; [by exists chv'|].
      intros Hin0. destruct (HP _ _ _ E0 Hin0) as (chv0 & Echv0 & Hp0).
      congruence.
    + intros p' pv'. simpl. rewrite deref_free, Hp1.
      case_decide; [done|]. apply HN.
  - intros _. unfold Consumer_destroy.
    destruct (deref (consumers w) c) as [cv|]; [|done].
    destruct (channel_ cv) as [cha|].
    + destruct (deref (channels w) cha) as [chv|] eqn:Echa; [|done].
      intros [= <-]. split; [|done].
      intros p pv ch'. simpl. rewrite (deref_store _ _ _ _ _ Echa).
      intros Epv Hin. destruct (HP _ _ _ Epv Hin) as (chv' & Echv' & Hp').
      case_decide.
      * subst ch'. eexists. split; [done|]. simpl. congruence.
      * by exists chv'.
    + by intros [= <-].
Qed.

Lemma disciplined_invariants w :
  disciplined w → links_ok w ∧ producers_linked w ∧ channels_nodup w.
Proof.
  intros [ops Hrun].
  assert (∀ (u : @World State),
            links_ok u → producers_linked u → channels_nodup u →
            run_disciplined ops u = Some w →
            links_ok w ∧ producers_linked w ∧ channels_nodup w) as Hgen.
  { clear Hrun. induction ops as [|o ops IH]; intros u Hok HP HN.
    - by intros [= <-].
    - rewrite run_disciplined_cons.
      destruct (step_disciplined o u) as [u1|] eqn:E; [|done].
      apply step_disciplined_step in E as [Hg E].
      destruct (discipline_step o u u1 Hok HP HN Hg E) as [HP1 HN1].
      apply IH; [by eapply links_ok_step|done|done]. }
  apply (Hgen empty_world); [apply links_ok_empty| | |done].
  - intros p pv ch E. by destruct p.
  - intros p pv E. by destruct p.
Qed.

(** X8: a client that never displaces a producer never sees a dangling
    pointer: in every state it can be in, all four kinds of pointer refer to
    live objects, every channel on [p.channels()] has [p] as its
    [producer()], and no channel is on the list twice. *)
Theorem discipline_excludes_dangling w :
  disciplined w →
  no_dangling w ∧
  (∀ p l ch, Producer_channels p w = Some l → ch ∈ l →
     Channel_producer ch w = Some (Some p)) ∧
  (∀ p l, Producer_channels p w = Some l → NoDup l).
Proof.
  intros Hd. destruct (disciplined_invariants w Hd) as ((H1 & H2 & H3) & HP & HN).
  split; [|split].
  - split; [|split; [|split]].
    + intros p pv ch E Hin. destruct (HP _ _ _ E Hin) as (chv & Echv & _).
      by exists chv.
    + intros ch chv c E Hin. destruct (H1 _ _ _ E Hin) as (cv & Ecv & _).
      by exists cv.
    + intros ch chv p E Hp. destruct (H3 _ _ _ E Hp) as (pv & Epv & _).
      by exists pv.
    + intros c cv ch E Hch. destruct (H2 _ _ _ E Hch) as (chv & Echv & _).
      by exists chv.
  - intros p l ch (pv & E & <-)%Producer_channels_Some Hin.
    destruct (HP _ _ _ E Hin) as (chv & Echv & Hp).
    apply Channel_producer_Some. by exists chv.
  - intros p l (pv & E & <-)%Producer_channels_Some. by apply (HN p).
Qed.

Lemma disciplined_channels_live w p pv :
  disciplined w → deref (producers w) p = Some pv →
  Forall (live (channels w)) (channels_ pv).
Proof.
  intros Hd E. destruct (disciplined_invariants w Hd) as (_ & HP & _).
  apply Forall_forall. intros ch Hin.
  destruct (HP _ _ _ E Hin) as (chv & Echv & _). by exists chv.
Qed.

(** X9: when the constructor of [Producer] and [set_producer], with any
    argument, [nullptr] included, are only ever called on a channel whose
    [producer()] is [nullptr], every call on a live object is defined and
    leads to a state of the same kind: [produce] on any live producer, and
    the destructor of any live producer, channel or consumer, in whatever
    order they are destroyed. *)
Theorem disciplined_calls_defined w :
  disciplined w →
  (∀ p s, live (producers w) p →
     ∃ w', Producer_produce p s w = Some w' ∧ disciplined w') ∧
  (∀ p, live (producers w) p →
     ∃ w', Producer_destroy p w = Some w' ∧ disciplined w') ∧
  (∀ ch, live (channels w) ch →
     ∃ w', Channel_destroy ch w = Some w' ∧ disciplined w') ∧
  (∀ c, live (consumers w) c →
     ∃ w', Consumer_destroy c w = Some w' ∧ disciplined w').
Proof.
  intros Hd. destruct (disciplined_invariants w Hd) as (Hok & HP & HN).
  split; [|split; [|split]].
  - intros p s [pv E].
    destruct (produce_reaches p pv s w Hok E) as (w' & Hrun & _).
    { by apply disciplined_channels_live with p. }
    exists w'. split; [done|]. by apply (disciplined_step (Produce p s) w).
  - intros p [pv E].
    destruct (Producer_destroy_Some p pv w E) as (w' & Hrun & _).
    { by apply disciplined_channels_live with p. }
    exists w'. split; [done|]. by apply (disciplined_step (DestroyProducer p) w).
  - intros ch [chv E].
    destruct (Channel_destroy_Some ch chv w Hok E) as (w' & Hrun & _).
    exists w'. split; [done|]. by apply (disciplined_step (DestroyChannel ch) w).
  - intros c [cv E].
    assert (is_Some (Consumer_destroy c w)) as [w' Hrun].
    { unfold Consumer_destroy. rewrite E.
      destruct (channel_ cv) as [cha|] eqn:Hch; [|by eexists].
      destruct Hok as (_ & H2 & _).
      destruct (H2 _ _ _ E Hch) as (chv & -> & _). by eexists. }
    exists w'. split; [done|]. by apply (disciplined_step (DestroyConsumer c) w).
Qed.

(** X10: when the constructor of [Producer] and [set_producer], with any
    argument, [nullptr] included, are only ever called on a channel whose
    [producer()] is [nullptr], [produce] runs [on_new_state] exactly once on
    each consumer of each channel of the producer, and on no other
    consumer. *)
Theorem disciplined_produce_exactly_once p pv s w :
  disciplined w →
  deref (producers w) p = Some pv →
  ∃ w' evs, Producer_produce p s w = Some w' ∧
            hooks w' = hooks w ++ evs ∧
            NoDup (hc_consumer <$> evs) ∧
            ∀ c, c ∈ hc_consumer <$> evs ↔
                 ∃ ch l, ch ∈ channels_ pv ∧
                         Channel_consumers ch w = Some l ∧ c ∈ l.
Proof.
  intros Hd E. destruct (disciplined_invariants w Hd) as (Hok & HP & HN).
  pose proof (reachable_consumers_nodup w (disciplined_reachable w Hd)) as HC.
  destruct (produce_reaches p pv s w Hok E) as (w' & Hrun & Hdel).
  { by apply disciplined_channels_live with p. }
  destruct Hdel as (_ & _ & _ & evs & Hh & Hcs & _).
  exists w', evs. split; [done|]. split; [done|]. rewrite Hcs. split.
  - unfold receivers. apply NoDup_bind; [| |by apply (HN p)].
    + intros ch1 ch2 c _ _. unfold consumers_of, Channel_consumers.
      destruct (deref (channels w) ch1) as [chv1|] eqn:E1; simpl;
        [|by intros ?%elem_of_nil].
      destruct (deref (channels w) ch2) as [chv2|] eqn:E2; simpl;
        [|by intros _ ?%elem_of_nil].
      intros Hin1 Hin2. destruct Hok as (H1 & _).
      destruct (H1 _ _ _ E1 Hin1) as (cv1 & Ecv1 & Hcv1).
      destruct (H1 _ _ _ E2 Hin2) as (cv2 & Ecv2 & Hcv2). congruence.
    + intros ch _. unfold consumers_of, Channel_consumers.
      destruct (deref (channels w) ch) as [chv|] eqn:E1; simpl; [|constructor].
      by apply (HC ch).
  - intros c. unfold receivers. rewrite list_elem_of_bind. split.
    + intros (ch & Hc & Hch). unfold consumers_of in Hc.
      destruct (Channel_consumers ch w) as [l|] eqn:El; simpl in Hc.
      * by exists ch, l.
      * by apply elem_of_nil in Hc.
    + intros (ch & l & Hch & El & Hc). exists ch. split; [|done].
      unfold consumers_of. by rewrite El.
Qed.

End Discipline.

(** ** What the hook has seen *)

Section History.
Context {State : Type} `{!AState State}.
Implicit Types (s : State) (w : @World State) (c ch p : addr) (l chs : list addr).
Implicit Types (e : @HookCall State) (evs : list (@HookCall State)).








Lemma sever_loop_length l w w' :
  for_each Consumer_clear_channel l w = Some w' →
  length (consumers w') = length (consumers w).
Proof.
  apply (for_each_rel (λ u v : @World State,
                         length (consumers v) = length (consumers u)));
    [done|congruence|].
  intros c u v _. unfold Consumer_clear_channel.
  destruct (deref (consumers u) c); [|done]. intros [= <-]. simpl.
  apply length_insert.
Qed.

(** Calls other than [produce] do not run the hook and do not touch the
    cached state of any consumer. *)
Lemma step_state_frame o w w' :
  (∀ p s, o ≠ Produce p s) →
  step o w = Some w' →
  hooks w' = hooks w ∧
  length (consumers w) ≤ length (consumers w') ∧
  ∀ c cv', deref (consumers w') c = Some cv' →
    (∃ cv, deref (consumers w) c = Some cv ∧ state_ cv' = state_ cv) ∨
    (c = length (consumers w) ∧
                 ∃ junk, state_ cv' = default_initialised junk).
Proof.
  intros Hnp.
  assert (∀ w1 : @World State, consumers w1 = consumers w →
            length (consumers w) ≤ length (consumers w1) ∧
            ∀ c cv', deref (consumers w1) c = Some cv' →
              (∃ cv, deref (consumers w) c = Some cv ∧ state_ cv' = state_ cv) ∨
              (c = length (consumers w) ∧
                 ∃ junk, state_ cv' = default_initialised junk)) as Hsame.
  { intros w1 ->. split; [done|]. intros c cv' E. left. by exists cv'. }
  destruct o as [|ch|ch junk|ch po|p s|ch|p|c0]; simpl.
  - intros [= <-]. split; [done|]. by apply Hsame.
  - unfold Producer_new, alloc.
    destruct (Channel_set_producer _ _ _) as [w1|] eqn:E; [|done].
    intros [= <-]. apply Channel_set_producer_frame in E as [Hco Hh].
    split; [done|]. by apply Hsame.
  - unfold Consumer_new, alloc, Channel_internal_add_consumer. simpl.
    destruct (deref (channels w) ch) as [chv|]; [|done]. intros [= <-]. simpl.
    split; [done|]. split; [rewrite length_app; lia|].
    intros c cv'. rewrite deref_alloc. case_decide.
    + intros [= <-]. right. split; [done|]. by exists junk.
    + intros E. left. by exists cv'.
  - intros E. apply Channel_set_producer_frame in E as [Hco Hh].
    split; [done|]. by apply Hsame.
  - by destruct (Hnp p s).
  - unfold Channel_destroy. destruct (deref (channels w) ch) as [chv|]; [|done].
    destruct (for_each _ _ _) as [w1|] eqn:E1; [|done].
    pose proof (sever_loop_length _ _ _ E1) as Hlen.
    apply sever_loop_inv in E1 as (_ & _ & _ & Hh1 & Hd1).
    destruct (match producer_ chv with Some pa => _ | None => _ end)
      as [w2|] eqn:E2; [|done].
    intros [= <-]. simpl.
    assert (consumers w2 = consumers w1 ∧ hooks w2 = hooks w1) as [Hco2 Hh2].
    { destruct (producer_ chv) as [pa|]; [|by injection E2 as <-].
      unfold Producer_internal_remove_channel in E2.
      destruct (deref (producers w1) pa); [|done]. by injection E2 as <-. }
    rewrite Hco2, Hh2. split; [done|]. split; [lia|].
    intros c cv'. rewrite Hd1.
    destruct (deref (consumers w) c) as [cv|]; [|done]. simpl.
    intros [= <-]. left. exists cv. split; [done|]. by case_decide.
  - unfold Producer_destroy. destruct (deref (producers w) p) as [pv|]; [|done].
    destruct (for_each _ _ _) as [w1|] eqn:E1; [|done].
    apply unbind_loop_inv in E1 as (_ & _ & Hco & Hh & _).
    intros [= <-]. simpl. split; [done|]. by apply Hsame.
  - unfold Consumer_destroy. destruct (deref (consumers w) c0) as [cv0|]; [|done].
    assert (∀ w1 : @World State, consumers w1 = consumers w →
              length (consumers w) ≤ length (free (consumers w1) c0) ∧
              ∀ c cv', deref (free (consumers w1) c0) c = Some cv' →
                (∃ cv, deref (consumers w) c = Some cv ∧
                       state_ cv' = state_ cv) ∨
                (c = length (consumers w) ∧
                 ∃ junk, state_ cv' = default_initialised junk))
      as Hfree.
    { intros w1 ->. unfold free at 1. rewrite length_insert. split; [done|].
      intros c cv'. rewrite deref_free. case_decide; [done|].
      intros E. left. by exists cv'. }
    destruct (channel_ cv0) as [cha|].
    + destruct (deref (channels w) cha); [|done]. intros [= <-]. simpl.
      split; [done|]. by apply (Hfree w).
    + intros [= <-]. simpl. split; [done|]. by apply (Hfree w).
Qed.



End History.

(** ** A consumer's channel over time *)

Section Binding.
Context {State : Type} `{!AState State}.
Implicit Types (s : State) (w : @World State) (c ch p : addr) (l chs : list addr).

(** One call leaves a live consumer's [channel_] as it is or clears it, or
    destroys the consumer. *)
Lemma step_channel o w w' c cv :
  deref (consumers w) c = Some cv →
  step o w = Some w' →
  (∃ cv', deref (consumers w') c = Some cv' ∧
          (channel_ cv' = channel_ cv ∨ channel_ cv' = None)) ∨
  destroyed (consumers w') c.
Proof.
  intros E.
  assert (∀ w1 : @World State, consumers w1 = consumers w →
            (∃ cv', deref (consumers w1) c = Some cv' ∧
                    (channel_ cv' = channel_ cv ∨ channel_ cv' = None)) ∨
            destroyed (consumers w1) c) as Hsame.
  { intros w1 ->. left. exists cv. split; [done|by left]. }
  destruct o as [|ch|ch junk|ch po|p s|ch|p|c0]; simpl.
  - intros [= <-]. by apply Hsame.
  - unfold Producer_new, alloc.
    destruct (Channel_set_producer _ _ _) as [w1|] eqn:E1; [|done].
    intros [= <-]. apply Channel_set_producer_frame in E1 as [Hco _].
    by apply Hsame.
  - unfold Consumer_new, alloc, Channel_internal_add_consumer. simpl.
    destruct (deref (channels w) ch) as [chv|]; [|done]. intros [= <-]. simpl.
    left. exists cv. split; [|by left].
    rewrite deref_alloc, decide_False; [done|]. apply deref_length in E. lia.
  - intros E1. apply Channel_set_producer_frame in E1 as [Hco _].
    by apply Hsame.
  - intros E1. apply Producer_produce_inv in E1 as (pv & _ & _ & _ & _ & _ & Hd & _).
    left. rewrite Hd, E. simpl. eexists. split; [done|]. left. by case_decide.
  - unfold Channel_destroy. destruct (deref (channels w) ch) as [chv|]; [|done].
    destruct (for_each _ _ _) as [w1|] eqn:E1; [|done].
    apply sever_loop_inv in E1 as (_ & _ & _ & _ & Hd1).
    destruct (match producer_ chv with Some pa => _ | None => _ end)
      as [w2|] eqn:E2; [|done].
    intros [= <-]. simpl.
    assert (consumers w2 = consumers w1) as ->.
    { destruct (producer_ chv) as [pa|]; [|by injection E2 as <-].
      unfold Producer_internal_remove_channel in E2.
      destruct (deref (producers w1) pa); [|done]. by injection E2 as <-. }
    left. rewrite Hd1, E. simpl. eexists. split; [done|].
    case_decide; [by right|by left].
  - unfold Producer_destroy. destruct (deref (producers w) p) as [pv|]; [|done].
    destruct (for_each _ _ _) as [w1|] eqn:E1; [|done].
    apply unbind_loop_inv in E1 as (_ & _ & Hco & _).
    intros [= <-]. simpl. by apply Hsame.
  - unfold Consumer_destroy.
    destruct (deref (consumers w) c0) as [cv0|] eqn:E0; [|done].
    assert (∀ w1 : @World State, consumers w1 = consumers w →
              (∃ cv', deref (free (consumers w1) c0) c = Some cv' ∧
                      (channel_ cv' = channel_ cv ∨ channel_ cv' = None)) ∨
              destroyed (free (consumers w1) c0) c) as Hfree.
    { intros w1 ->. destruct (decide (c = c0)) as [->|Hne].
      - right. by apply free_destroys with cv.
      - left. exists cv. split; [|by left]. by rewrite deref_free, decide_False. }
    destruct (channel_ cv0) as [cha|].
    + destruct (deref (channels w) cha); [|done]. intros [= <-]. simpl.
      by apply (Hfree w).
    + intros [= <-]. simpl. by apply (Hfree w).
Qed.

Lemma run_channel ops w w' c cho :
  (∃ cv, deref (consumers w) c = Some cv ∧
         (channel_ cv = cho ∨ channel_ cv = None)) ∨
  destroyed (consumers w) c →
  run ops w = Some w' →
  (∃ cv', deref (consumers w') c = Some cv' ∧
          (channel_ cv' = cho ∨ channel_ cv' = None)) ∨
  destroyed (consumers w') c.
Proof.
  revert w. induction ops as [|o ops IH]; intros w HJ.
  - by intros [= <-].
  - rewrite run_cons. destruct (step o w) as [w1|] eqn:E; [|done].
    apply IH. destruct HJ as [(cv & Ecv & Hcv)|Hdead].
    + destruct (step_channel o w w1 c cv Ecv E) as [(cv' & Ecv' & Hcv')|Hdead].
      * left. exists cv'. split; [done|].
        destruct Hcv' as [->| ->]; [done|by right].
      * by right.
    + right. by eapply step_keeps_destroyed.
Qed.

(** X12: a consumer is never bound to another channel.  Whatever calls are
    made, on whatever objects, a consumer that is still alive afterwards has
    the [channel()] it had before, or [nullptr]. *)
Theorem consumer_never_rebound ops w w' c cv cv' :
  deref (consumers w) c = Some cv →
  run ops w = Some w' →
  deref (consumers w') c = Some cv' →
  channel_ cv' = channel_ cv ∨ channel_ cv' = None.
Proof.
  intros E Hrun E'.
  destruct (run_channel ops w w' c (channel_ cv)) as [(cv'' & E'' & H)|Hdead];
    [left; exists cv; split; [done|by left]|done| |].
  - congruence.
  - apply destroyed_not_live in Hdead. congruence.
Qed.


(** X13: no call other than [produce] runs the hook or changes the cached
    state of a consumer: a consumer alive before and after the call has the
    same [state()]. *)
Theorem only_produce_changes_state o w w' :
  (∀ p s, o ≠ Produce p s) →
  step o w = Some w' →
  hooks w' = hooks w ∧
  ∀ c x, Consumer_state c w = Some x → live (consumers w') c →
         Consumer_state c w' = Some x.
Proof.
  intros Hnp E. destruct (step_state_frame o w w' Hnp E) as (Hh & _ & Hco).
  split; [done|]. intros c x. unfold Consumer_state.
  destruct (deref (consumers w) c) as [cv|] eqn:Ecv; [|done].
  intros [= <-] [cv' Ecv']. rewrite Ecv'. simpl.
  destruct (Hco _ _ Ecv') as [(cv0 & E0 & ->)|[-> _]].
  - congruence.
  - by rewrite deref_fresh in Ecv.
Qed.

End Binding.

Lemma discipline_excludes_dangling_witness :
  disciplined two_channel_world ∧
  no_dangling two_channel_world ∧
  (∀ p l ch, Producer_channels p two_channel_world = Some l → ch ∈ l →
     Channel_producer ch two_channel_world = Some (Some p)) ∧
  (∀ p l, Producer_channels p two_channel_world = Some l → NoDup l).
Proof.
  assert (disciplined two_channel_world) as Hd.
  { exists two_channel_ops. reflexivity. }
  split; [exact Hd|]. exact (discipline_excludes_dangling two_channel_world Hd).
Defined.

Lemma disciplined_calls_defined_witness :
  disciplined fan_out_world ∧
  (∀ p s, live (producers fan_out_world) p →
     ∃ w', Producer_produce p s fan_out_world = Some w' ∧ disciplined w') ∧
  (∀ p, live (producers fan_out_world) p →
     ∃ w', Producer_destroy p fan_out_world = Some w' ∧ disciplined w') ∧
  (∀ ch, live (channels fan_out_world) ch →
     ∃ w', Channel_destroy ch fan_out_world = Some w' ∧ disciplined w') ∧
  (∀ c, live (consumers fan_out_world) c →
     ∃ w', Consumer_destroy c fan_out_world = Some w' ∧ disciplined w').
Proof.
  assert (disciplined fan_out_world) as Hd by (exists fan_out_ops; reflexivity).
  split; [exact Hd|]. exact (disciplined_calls_defined fan_out_world Hd).
Defined.

Lemma disciplined_produce_exactly_once_witness :
  disciplined two_channel_world ∧
  deref (producers two_channel_world) 0 = Some (mkProducer [0; 1]) ∧
  ∃ w' evs, Producer_produce 0 3 two_channel_world = Some w' ∧
            hooks w' = hooks two_channel_world ++ evs ∧
            NoDup (hc_consumer <$> evs) ∧
            ∀ c, c ∈ hc_consumer <$> evs ↔
                 ∃ ch l, ch ∈ [0; 1] ∧
                         Channel_consumers ch two_channel_world = Some l ∧
                         c ∈ l.
Proof.
  assert (disciplined two_channel_world) as Hd.
  { exists two_channel_ops. reflexivity. }
  split; [exact Hd|]. split; [reflexivity|].
  exact (disciplined_produce_exactly_once 0 (mkProducer [0; 1]) 3
           two_channel_world Hd eq_refl).
Defined.

Lemma consumer_never_rebound_witness :
  deref (consumers fan_out_world) 1 = Some (mkConsumer (Some 0) 0) ∧
  run [Produce 0 5; DestroyChannel 0] fan_out_world = Some severed_world ∧
  deref (consumers severed_world) 1 = Some (mkConsumer None 5) ∧
  (channel_ (mkConsumer None 5) = channel_ (mkConsumer (Some 0) 0) ∨
   channel_ (mkConsumer None 5) = None).
Proof.
  split; [reflexivity|]. split; [reflexivity|]. split; [reflexivity|].
  exact (consumer_never_rebound [Produce 0 5; DestroyChannel 0] fan_out_world
           severed_world 1 (mkConsumer (Some 0) 0) (mkConsumer None 5)
           eq_refl eq_refl eq_refl).
Defined.


Lemma only_produce_changes_state_witness :
  (∀ p s, DestroyConsumer 0 ≠ @Produce nat p s) ∧
  step (DestroyConsumer 0) severed_world =
    Some (mkWorld [Some (mkProducer [])] [None]
            [None; Some (mkConsumer None 5)]
            [mkHookCall 0 0 5; mkHookCall 1 0 5]) ∧
  hooks (mkWorld [Some (mkProducer [])] [None]
           [None; Some (mkConsumer None 5)]
           [mkHookCall 0 0 5; mkHookCall 1 0 5]) = hooks severed_world ∧
  ∀ c x, Consumer_state c severed_world = Some x →
         live (consumers (mkWorld [Some (mkProducer [])] [None]
                            [None; Some (mkConsumer None 5)]
                            [mkHookCall 0 0 5; mkHookCall 1 0 5])) c →
         Consumer_state c (mkWorld [Some (mkProducer [])] [None]
                             [None; Some (mkConsumer None 5)]
                             [mkHookCall 0 0 5; mkHookCall 1 0 5]) = Some x.
Proof.
  assert (∀ p s, DestroyConsumer 0 ≠ @Produce nat p s) as Hnp by discriminate.
  split; [exact Hnp|]. split; [reflexivity|].
  exact (only_produce_changes_state (DestroyConsumer 0) severed_world _ Hnp
           eq_refl).
Defined.

(** ** Binding and unbinding over several calls *)

Section Rebinding.
Context {State : Type} `{!AState State}.
Implicit Types (s : State) (w : @World State) (c ch p : addr) (l chs : list addr).

(** X14: constructing a producer on a live channel and destroying it again
    is always defined and leaves the channel without a producer, whatever
    producer it had before; the lists of the other producers, the other
    channels and all consumers are as they were.  A producer the channel had
    before therefore still lists it. *)
Theorem temporary_producer_unbinds ch chv w :
  deref (channels w) ch = Some chv →
  ∃ p2 w1 w2, Producer_new ch w = Some (p2, w1) ∧
              Producer_destroy p2 w1 = Some w2 ∧
              Channel_producer ch w2 = Some None ∧
              Channel_consumers ch w2 = Some (consumers_ chv) ∧
              (∀ a, a ≠ ch → deref (channels w2) a = deref (channels w) a) ∧
              (∀ p, deref (producers w2) p = deref (producers w) p) ∧
              consumers w2 = consumers w ∧
              hooks w2 = hooks w.
Proof.
  intros E. set (p2 := length (producers w)).
  set (w1 := mkWorld
               (store (producers w ++ [Some (mkProducer [])]) p2
                  (mkProducer ([] ++ [ch])))
               (store (channels w) ch (mkChannel (consumers_ chv) (Some p2)))
               (consumers w) (hooks w)).
  assert (Producer_new ch w = Some (p2, w1)) as Hnew.
  { unfold Producer_new, alloc, Channel_set_producer.
    cbn [channels producers with_producers with_channels]. rewrite E.
    by rewrite deref_alloc, decide_True. }
  assert (deref (producers w1) p2 = Some (mkProducer [ch])) as Ep2.
  { unfold w1. cbn [producers]. erewrite deref_store.
    - by rewrite decide_True.
    - unfold p2. by rewrite deref_alloc, decide_True. }
  assert (deref (channels w1) ch =
          Some (mkChannel (consumers_ chv) (Some p2))) as Ech.
  { unfold w1. cbn [channels]. by rewrite (deref_store _ _ _ _ _ E), decide_True. }
  destruct (Producer_destroy_Some p2 (mkProducer [ch]) w1 Ep2)
    as (w2 & Hdes & Hco & Hh & Hch & Hpr).
  { constructor; [by eexists|constructor]. }
  assert (deref (channels w2) ch = Some (mkChannel (consumers_ chv) None)) as E2.
  { rewrite Hch, Ech. simpl. rewrite decide_True; [done|by left]. }
  exists p2, w1, w2. split; [done|]. split; [done|].
  split; [unfold Channel_producer; by rewrite E2|].
  split; [unfold Channel_consumers; by rewrite E2|].
  split; [|split; [|done]].
  - intros a Hne. rewrite Hch. unfold w1. cbn [channels].
    rewrite (deref_store _ _ _ _ _ E), decide_False by done.
    destruct (deref (channels w) a); simpl; [|done].
    rewrite decide_False; [done|]. by intros ->%list_elem_of_singleton.
  - intros p. rewrite Hpr. case_decide.
    + subst p. unfold p2. by rewrite deref_fresh.
    + unfold w1. cbn [producers]. erewrite deref_store;
        [|unfold p2; by rewrite deref_alloc, decide_True].
      rewrite decide_False by done. by rewrite deref_alloc, decide_False.
Qed.

Lemma consumers_of_ext w w' :
  (∀ a, consumers_ <$> deref (channels w') a =
        consumers_ <$> deref (channels w) a) →
  ∀ chs, receivers w' chs = receivers w chs.
Proof.
  intros Hext chs. unfold receivers. induction chs as [|a chs IH]; [done|].
  rewrite !bind_cons, IH. f_equal.
  unfold consumers_of, Channel_consumers. by rewrite Hext.
Qed.

(** X15: [set_producer] registers the channel with the producer again each
    time it is called.  When a channel already bound to [p] is bound to [p]
    once more, and the channels on the list of [p] are all alive,
    [p.channels()] has the channel appended a second time, and [produce]
    then delivers to the consumers of that channel once more at the end,
    after everything it delivered to before. *)
Theorem rebinding_same_producer_duplicates ch chv p pv w :
  reachable w →
  deref (channels w) ch = Some chv →
  producer_ chv = Some p →
  deref (producers w) p = Some pv →
  Forall (live (channels w)) (channels_ pv) →
  ∃ w', Channel_set_producer ch (Some p) w = Some w' ∧
        Producer_channels p w' = Some (channels_ pv ++ [ch]) ∧
        ch ∈ channels_ pv ∧
        ∀ s, ∃ w'' evs,
          Producer_produce p s w' = Some w'' ∧
          hooks w'' = hooks w' ++ evs ∧
          hc_consumer <$> evs = receivers w (channels_ pv) ++ consumers_ chv.
Proof.
  intros Hr E Hp Epv Hl.
  destruct (reachable_links_ok _ Hr) as (_ & _ & H3).
  destruct (H3 _ _ _ E Hp) as (pv' & Epv' & Hin).
  assert (pv' = pv) as -> by congruence.
  destruct (Channel_set_producer ch (Some p) w) as [w'|] eqn:Erun; cycle 1.
  { exfalso. revert Erun. unfold Channel_set_producer. rewrite E. simpl.
    by rewrite Epv. }
  assert (reachable w') as Hr'
    by (by apply (reachable_step (SetProducer ch (Some p)) w)).
  revert Erun. unfold Channel_set_producer. rewrite E. simpl. rewrite Epv.
  intros [= Hw'].
  assert (deref (producers w') p = Some (mkProducer (channels_ pv ++ [ch])))
    as Ep'.
  { subst w'. simpl. rewrite (deref_store _ _ _ _ _ Epv). by rewrite decide_True. }
  assert (∀ a, deref (channels w') a =
               if decide (a = ch)
               then Some (mkChannel (consumers_ chv) (Some p))
               else deref (channels w) a) as Hch'.
  { intros a. subst w'. simpl. by rewrite (deref_store _ _ _ _ _ E). }
  exists w'. split; [done|].
  split; [unfold Producer_channels; by rewrite Ep'|]. split; [done|].
  intros s. pose proof (reachable_links_ok _ Hr') as Hok'.
  destruct (produce_reaches p _ s w' Hok' Ep') as (w'' & Hrun'' & Hd).
  { simpl. apply Forall_app. split.
    - eapply Forall_impl; [exact Hl|]. intros a. unfold live.
      rewrite Hch'. by case_decide.
    - constructor; [|constructor]. unfold live. rewrite Hch'.
      by rewrite decide_True. }
  destruct Hd as (_ & _ & _ & evs & Hh & Hcs & _).
  exists w'', evs. split; [done|]. split; [done|]. rewrite Hcs. simpl.
  rewrite (consumers_of_ext w w').
  - unfold receivers. rewrite bind_app, bind_singleton.
    by rewrite (consumers_of_live _ _ _ E).
  - intros a. rewrite Hch'. case_decide; [|done]. subst a. by rewrite E.
Qed.

(** X16: the destructor of a channel erases the channel from the list of its
    producer, every occurrence of it, and leaves the lists of all other
    producers as they are. *)
Theorem channel_destruction_unlists ch chv p pv w :
  reachable w →
  deref (channels w) ch = Some chv →
  producer_ chv = Some p →
  deref (producers w) p = Some pv →
  ∃ w', Channel_destroy ch w = Some w' ∧
        Producer_channels p w' = Some (erase (channels_ pv) ch) ∧
        (ch ∉ erase (channels_ pv) ch) ∧
        ∀ p', p' ≠ p → Producer_channels p' w' = Producer_channels p' w.
Proof.
  intros Hr E Hp Epv. pose proof (reachable_links_ok _ Hr) as Hok.
  destruct (Channel_destroy_Some ch chv w Hok E) as (w' & Hrun & _).
  pose proof (λ a, Channel_destroy_producers ch chv w w' a E Hrun) as Hpr.
  exists w'. split; [done|]. split; [|split].
  - unfold Producer_channels. rewrite Hpr, Epv. simpl.
    by rewrite decide_True.
  - rewrite elem_of_erase. tauto.
  - intros p' Hne. unfold Producer_channels. rewrite Hpr.
    destruct (deref (producers w) p'); simpl; [|done].
    rewrite decide_False; [done|congruence].
Qed.

End Rebinding.

Lemma temporary_producer_unbinds_witness :
  deref (channels fan_out_world) 0 = Some (mkChannel [0; 1] (Some 0)) ∧
  ∃ p2 w1 w2, Producer_new 0 fan_out_world = Some (p2, w1) ∧
              Producer_destroy p2 w1 = Some w2 ∧
              Channel_producer 0 w2 = Some None ∧
              Channel_consumers 0 w2 = Some [0; 1] ∧
              (∀ a, a ≠ 0 →
                 deref (channels w2) a = deref (channels fan_out_world) a) ∧
              (∀ p, deref (producers w2) p =
                    deref (producers fan_out_world) p) ∧
              consumers w2 = consumers fan_out_world ∧
              hooks w2 = hooks fan_out_world.
Proof.
  split; [reflexivity|].
  exact (temporary_producer_unbinds 0 (mkChannel [0; 1] (Some 0))
           fan_out_world eq_refl).
Defined.

Lemma rebinding_same_producer_duplicates_witness :
  reachable fan_out_world ∧
  deref (channels fan_out_world) 0 = Some (mkChannel [0; 1] (Some 0)) ∧
  deref (producers fan_out_world) 0 = Some (mkProducer [0]) ∧
  Forall (live (channels fan_out_world)) [0] ∧
  ∃ w', Channel_set_producer 0 (Some 0) fan_out_world = Some w' ∧
        Producer_channels 0 w' = Some ([0] ++ [0]) ∧
        0 ∈ [0] ∧
        ∀ s, ∃ w'' evs,
          Producer_produce 0 s w' = Some w'' ∧
          hooks w'' = hooks w' ++ evs ∧
          hc_consumer <$> evs = receivers fan_out_world [0] ++ [0; 1].
Proof.
  assert (reachable fan_out_world) as Hr by (exists fan_out_ops; reflexivity).
  assert (Forall (live (channels fan_out_world)) [0]) as Hl.
  { repeat constructor; eexists; reflexivity. }
  split; [exact Hr|]. split; [reflexivity|]. split; [reflexivity|].
  split; [exact Hl|].
  exact (rebinding_same_producer_duplicates 0 (mkChannel [0; 1] (Some 0)) 0
           (mkProducer [0]) fan_out_world Hr eq_refl eq_refl eq_refl Hl).
Defined.

Lemma channel_destruction_unlists_witness :
  reachable two_channel_world ∧
  deref (channels two_channel_world) 1 = Some (mkChannel [1] (Some 0)) ∧
  deref (producers two_channel_world) 0 = Some (mkProducer [0; 1]) ∧
  ∃ w', Channel_destroy 1 two_channel_world = Some w' ∧
        Producer_channels 0 w' = Some (erase [0; 1] 1) ∧
        (1 ∉ erase [0; 1] 1) ∧
        ∀ p', p' ≠ 0 →
              Producer_channels p' w' = Producer_channels p' two_channel_world.
Proof.
  assert (reachable two_channel_world) as Hr.
  { exists two_channel_ops. reflexivity. }
  split; [exact Hr|]. split; [reflexivity|]. split; [reflexivity|].
  exact (channel_destruction_unlists 1 (mkChannel [1] (Some 0)) 0
           (mkProducer [0; 1]) two_channel_world Hr eq_refl eq_refl eq_refl).
Defined.

(** * Calls that reach a stale entry *)

(** C2: in [stale_world], reached by [stale_ops], producer 0 is the producer
    of channel 0, which has consumers 0 and 1, and its list still holds the
    address of the destroyed channel 1.  The loop of [produce] delivers to
    channel 0 and then calls [internal_produce] on the destroyed channel:
    [p.produce(5)] is undefined. *)
Theorem produce_undefined_with_stale_entry :
  run stale_ops empty_world = Some stale_world ∧
  Channel_producer 0 stale_world = Some (Some 0) ∧
  Channel_consumers 0 stale_world = Some [0; 1] ∧
  Producer_channels 0 stale_world = Some [0; 1] ∧
  ¬ live (channels stale_world) 1 ∧
  (∃ w1, Channel_internal_produce 5 0 stale_world = Some w1 ∧
         Channel_internal_produce 5 1 w1 = None) ∧
  Producer_produce 0 5 stale_world = None.
Proof.
  split; [reflexivity|]. split; [reflexivity|]. split; [reflexivity|].
  split; [reflexivity|]. split; [intros [x Hx]; discriminate Hx|].
  split; [|reflexivity]. eexists. split; reflexivity.
Qed.

(** C6: in [stale_world] producer 0 is the producer of channel 0.  Its
    destructor clears [producer_] of channel 0 and then calls
    [set_producer(nullptr)] on the destroyed channel 1: destroying the
    producer is undefined. *)
Theorem producer_destructor_undefined_with_stale_entry :
  reachable stale_world ∧
  Channel_producer 0 stale_world = Some (Some 0) ∧
  Producer_channels 0 stale_world = Some [0; 1] ∧
  (∃ w1, Channel_set_producer 0 None stale_world = Some w1 ∧
         Channel_set_producer 1 None w1 = None) ∧
  Producer_destroy 0 stale_world = None.
Proof.
  split; [exists stale_ops; reflexivity|]. split; [reflexivity|].
  split; [reflexivity|]. split; [|reflexivity].
  eexists. split; reflexivity.
Qed.

(** C7: in [stale_world] consumers 0 and 1 are registered on channel 0, whose
    producer is producer 0.  Destroying consumer 0 erases it from the list
    and leaves consumer 1 registered, but the next [produce] of producer 0
    is undefined, so nothing says that it updates consumer 1. *)
Theorem produce_after_consumer_destruction_undefined :
  reachable stale_world ∧
  Channel_consumers 0 stale_world = Some [0; 1] ∧
  Channel_producer 0 stale_world = Some (Some 0) ∧
  ∃ w', Consumer_destroy 0 stale_world = Some w' ∧
        Channel_consumers 0 w' = Some [1] ∧
        Consumer_channel 1 w' = Some (Some 0) ∧
        Producer_produce 0 5 w' = None.
Proof.
  split; [exists stale_ops; reflexivity|]. split; [reflexivity|].
  split; [reflexivity|]. eexists. split; [reflexivity|].
  split; [reflexivity|]. split; reflexivity.
Qed.

(** C10: in [stale_world] channel 0 is bound to producer 0.  After
    [set_producer(nullptr)] on channel 0 its [producer()] is [nullptr] and
    producer 0 still lists it, but [produce] of producer 0 is undefined, so
    nothing says that it delivers to the consumers of channel 0. *)
Theorem produce_after_unbinding_undefined :
  reachable stale_world ∧
  Channel_producer 0 stale_world = Some (Some 0) ∧
  ∃ w', Channel_set_producer 0 None stale_world = Some w' ∧
        Channel_producer 0 w' = Some None ∧
        Producer_channels 0 w' = Some [0; 1] ∧
        Channel_consumers 0 w' = Some [0; 1] ∧
        Producer_produce 0 5 w' = None.
Proof.
  split; [exists stale_ops; reflexivity|]. split; [reflexivity|].
  eexists. split; [reflexivity|]. split; [reflexivity|].
  split; [reflexivity|]. split; reflexivity.
Qed.

(** C9: in [severed_stale_world], reached by [severed_stale_ops], consumer 0
    is alive and severed, its channel destroyed, and producer 0 still lists
    that channel.  A later [produce] of producer 0 calls [internal_produce]
    on the destroyed channel and is undefined, so nothing says that it
    leaves the cached state of consumer 0 alone. *)
Theorem produce_undefined_for_severed_consumer :
  run severed_stale_ops empty_world = Some severed_stale_world ∧
  Consumer_channel 0 severed_stale_world = Some None ∧
  Consumer_state 0 severed_stale_world = Some 0 ∧
  Producer_channels 0 severed_stale_world = Some [0] ∧
  ¬ live (channels severed_stale_world) 0 ∧
  Producer_produce 0 5 severed_stale_world = None.
Proof.
  split; [reflexivity|]. split; [reflexivity|]. split; [reflexivity|].
  split; [reflexivity|]. split; [intros [x Hx]; discriminate Hx|].
  reflexivity.
Qed.
